(** * TVMTypeChecker: the TVM-specific semantic checks of the compiler

    A shallow embedding of [compiler/libsolidity/codegen/TVMTypeChecker.cpp]
    and the properties of its checks.  AST nodes are records holding what
    the checker reads through their accessors; pointers to callables and
    contracts are addresses resolved by a dereference function; the error
    reporter is an append-only log carried by a small writer monad that can
    also fault (a null dereference, [std::optional::value] on an empty
    optional, [at] out of range). *)

From Stdlib Require Import ZArith Lia.
From stdpp Require Import base option list gmap sets strings pretty sorting.

Open Scope string_scope.
Open Scope Z_scope.
Open Scope list_scope.

(** ** Source locations and the error reporter *)

Record SourceLocation : Type := mkLoc {
  loc_start : Z;
  loc_end : Z;
  loc_sourceName : string
}.

Global Instance SourceLocation_eq_dec : EqDecision SourceLocation.
Proof. solve_decision. Defined.

(** One call of [ErrorReporter::typeError]. *)
Record Error : Type := mkError {
  errorId : Z;
  location : SourceLocation;
  secondary : list (string * SourceLocation);
  message : string
}.

Global Instance Error_eq_dec : EqDecision Error.
Proof. solve_decision. Defined.

(** A check returns its value together with the errors it reported, or
    faults. *)
Definition TC (A : Type) : Type := option (A * list Error).

Global Instance TC_ret : MRet TC := λ A a, Some (a, []).

Global Instance TC_bind : MBind TC := λ A B f m,
  match m with
  | Some (a, w) =>
      match f a with
      | Some (b, w') => Some (b, w ++ w')
      | None => None
      end
  | None => None
  end.

Definition fault {A} : TC A := None.

(** Modelled from the spec: [ErrorReporter] is declared in liblangutil;
    section 6 has its sink as
    [report(code, primaryLocation, secondaryLocations, message)], fire and
    continue.  [m_errorReporter.typeError(id, loc, msg)] appends one error. *)
Definition typeError (id : Z) (loc : SourceLocation) (msg : string) : TC unit :=
  Some (tt, [mkError id loc [] msg]).

(** Modelled from the spec: the same sink, section 6, with secondary
    locations:
    [m_errorReporter.typeError(id, loc, SecondarySourceLocation().append(label, loc2), msg)]. *)
Definition typeError2 (id : Z) (loc : SourceLocation)
    (sec : list (string * SourceLocation)) (msg : string) : TC unit :=
  Some (tt, [mkError id loc sec msg]).

(** An [if] statement without [else]. *)
Definition when (b : bool) (m : TC unit) : TC unit :=
  if b then m else mret tt.

(** A range-based [for] loop whose body updates the local state [s]. *)
Fixpoint forEach {A S : Type} (l : list A) (body : A → S → TC S) (s : S) : TC S :=
  match l with
  | [] => mret s
  | x :: l' => s' ← body x s; forEach l' body s'
  end.

(** [std::optional<T>::value()] *)
Definition value {A} (o : option A) : TC A :=
  match o with
  | Some a => mret a
  | None => fault
  end.

(** [std::vector<T>::at(i)] *)
Definition at_ {A} (l : list A) (i : nat) : TC A :=
  match l !! i with
  | Some a => mret a
  | None => fault
  end.

Definition error_228 : Z := 228.

Definition dquote : string := String (Ascii.ascii_of_nat 34) EmptyString.
Definition newline : string := String (Ascii.ascii_of_nat 10) EmptyString.

(** Modelled from the spec: [toString] is declared in libsolutil; section 8
    has the ID 10 printed as [10], the decimal digits of the integer. *)
Definition toString_N (n : N) : string := pretty n.
Definition toString_Z (n : Z) : string := pretty n.

(** Short-circuit [&&] and [||] whose operands may fault. *)
Definition andM (a b : TC bool) : TC bool :=
  x ← a; if x : bool then b else mret false.

Definition orM (a b : TC bool) : TC bool :=
  x ← a; if x : bool then mret true else b.

(** Dereference of a pointer that may be null. *)
Definition deref {A} (p : option A) : TC A := value p.

(** ** The AST query surface *)

(** Modelled from the spec: the classes of the AST and of the types are
    declared in libsolidity/ast; section 6 lists what the checker reads of
    them, and the definitions of this part hold just that.
    [Type::Category]: the categories the checker tests for, and the rest. *)
Inductive Category : Type :=
  | Integer | Bool | FixedBytes | Enum | Array | Struct | Function | Magic
  | TvmCell | TvmSlice | OtherCategory.

Global Instance Category_eq_dec : EqDecision Category.
Proof. solve_decision. Defined.

(** [FunctionType::Kind]: the two kinds the checker tests for, and the rest. *)
Inductive Kind : Type :=
  | TVMInitCodeHash | TVMCode | OtherKind.

Record ArrayType : Type := mkArrayType { isByteArrayOrString : bool }.

Record FunctionType : Type := mkFunctionType { kind : Kind }.

(** The classes of [Type] the checker distinguishes, with the AST nodes
    they lead to: a struct type knows its definition, whose members are
    variable declarations with types of their own. *)
Inductive Type_ : Type :=
  | T_Integer (numBits : Z) (isSigned : bool)
  | T_Bool
  | T_FixedBytes (numBytes : Z)
  | T_Enum (numberOfMembers : Z)
  | T_Array (a : ArrayType)
  | T_Struct (s : StructDefinition)
  | T_Function (f : FunctionType)
  | T_Magic
  | T_TvmCell
  | T_TvmSlice
  | T_Other
with StructDefinition : Type :=
  | mkStructDefinition (members : list VariableDeclaration)
with VariableDeclaration : Type :=
  | mkVariableDeclaration (loc : SourceLocation) (type : Type_) (isStateVariable : bool).

Definition members (s : StructDefinition) : list VariableDeclaration :=
  match s with mkStructDefinition ms => ms end.

Definition var_location (v : VariableDeclaration) : SourceLocation :=
  match v with mkVariableDeclaration l _ _ => l end.

Definition var_type (v : VariableDeclaration) : Type_ :=
  match v with mkVariableDeclaration _ t _ => t end.

Definition isStateVariable (v : VariableDeclaration) : bool :=
  match v with mkVariableDeclaration _ _ b => b end.

(** Modelled from the spec: [Type::category()], section 6; each class of
    types has a category of its own. *)
Definition category (t : Type_) : Category :=
  match t with
  | T_Integer _ _ => Integer
  | T_Bool => Bool
  | T_FixedBytes _ => FixedBytes
  | T_Enum _ => Enum
  | T_Array _ => Array
  | T_Struct _ => Struct
  | T_Function _ => Function
  | T_Magic => Magic
  | T_TvmCell => TvmCell
  | T_TvmSlice => TvmSlice
  | T_Other => OtherCategory
  end.

(** Modelled from the spec: [to<T>] is declared in TVMCommons.hpp; it is
    the dynamic cast, null when the object is of another class:
    [to<ArrayType>(t)], [to<FunctionType>(t)], [to<StructType>(t)]. *)
Definition to_ArrayType (t : Type_) : option ArrayType :=
  match t with T_Array a => Some a | _ => None end.

Definition to_FunctionType (t : Type_) : option FunctionType :=
  match t with T_Function f => Some f | _ => None end.

Definition to_StructType (t : Type_) : option StructDefinition :=
  match t with T_Struct s => Some s | _ => None end.

(** [Visibility], as [Declaration::visibility()] resolves it. *)
Inductive Visibility : Type :=
  | Private | Internal | Public | External.

Global Instance Visibility_eq_dec : EqDecision Visibility.
Proof. solve_decision. Defined.

(** Addresses of [CallableDeclaration] and [ContractDefinition] nodes. *)
Abbreviation ptr := positive.

(** What the checker reads of a [FunctionDefinition]; each field is the
    accessor of the same name, [baseFunctions] is
    [annotation().baseFunctions] in the order the [std::set] yields it. *)
Record FunctionDefinition : Type := mkFunctionDefinition {
  name : string;
  fn_location : SourceLocation;
  visibility : Visibility;
  isPublic : bool;
  functionID : option N;
  isConstructor : bool;
  isReceive : bool;
  isFallback : bool;
  isOnTickTock : bool;
  isOnBounce : bool;
  isResponsible : bool;
  internalMsg : bool;
  externalMsg : bool;
  isInline : bool;
  parameters : list VariableDeclaration;
  returnParameters : list VariableDeclaration;
  baseFunctions : list ptr
}.

Record ContractDefinition : Type := mkContractDefinition {
  linearizedBaseContracts : list ptr;
  definedFunctions : list ptr
}.

Inductive TypeNameKind : Type :=
  | ElementaryTypeName | UserDefinedTypeName | OtherTypeName.

Record TypeName : Type := mkTypeName {
  tn_kind : TypeNameKind;
  tn_location : SourceLocation;
  tn_type : Type_
}.

(** [to<UserDefinedTypeName>(&t)] *)
Definition to_UserDefinedTypeName (t : TypeName) : option TypeName :=
  match tn_kind t with UserDefinedTypeName => Some t | _ => None end.

Record Mapping : Type := mkMapping { keyType : TypeName }.

Record Identifier : Type := mkIdentifier { ident_name : string }.

Record Expression : Type := mkExpression {
  expr_type : Type_;
  to_Identifier : option Identifier
}.

Record IndexRangeAccess : Type := mkIndexRangeAccess {
  baseExpression : Expression;
  ira_location : SourceLocation
}.

Record FunctionCall : Type := mkFunctionCall {
  fc_expression : Expression;
  isAwait : bool;
  fc_location : SourceLocation
}.

Record PragmaDirective : Type := mkPragmaDirective {
  literals : list string;
  pragma_location : SourceLocation
}.

Record MemberAccess : Type := mkMemberAccess {
  memberName : string;
  ma_expression : Expression;
  ma_location : SourceLocation
}.

(** ** Checks of single nodes *)

(** [TVMTypeChecker::check_onCodeUpgrade] *)
Definition check_onCodeUpgrade (f : FunctionDefinition) : TC unit :=
  let s := newline +:+ "function onCodeUpgrade(...) (internal|private) { /*...*/ }" in
  (if negb (bool_decide (returnParameters f = [])) then
     r ← at_ (returnParameters f) 0;
     typeError error_228 (var_location r)
       ("Function mustn't return any parameters. Expected function signature:" +:+ s)
   else mret tt);;
  when (isPublic f)
    (typeError error_228 (fn_location f)
       ("Bad function visibility. Expected function signature:" +:+ s)).

(** [TVMTypeChecker::visit(VariableDeclaration const&)] *)
Definition visit_VariableDeclaration (_node : VariableDeclaration) : TC bool :=
  when (isStateVariable _node && bool_decide (category (var_type _node) = TvmSlice))
    (typeError error_228 (var_location _node)
       "This type can't be used for state variables.");;
  mret true.

(** [TVMTypeChecker::visit(FunctionDefinition const&)] *)
Definition visit_FunctionDefinition (f : FunctionDefinition) : TC bool :=
  c ← andM (mret (bool_decide (is_Some (functionID f))))
           (v ← value (functionID f); mret (bool_decide (v = 0%N)));
  when c
    (typeError error_228 (fn_location f)
       "functionID can't be equal to zero because this value is reserved for receive function.");;
  when (bool_decide (is_Some (functionID f))
        && (negb (isPublic f) && negb (bool_decide (name f = "onCodeUpgrade"))))
    (typeError error_228 (fn_location f)
       "Only public/external functions and function `onCodeUpgrade` can have functionID.");;
  when (bool_decide (is_Some (functionID f))
        && (isReceive f || isFallback f || isOnTickTock f || isOnBounce f))
    (typeError error_228 (fn_location f)
       "functionID isn't supported for receive, fallback, onBounce and onTickTock functions.");;
  when (isInline f && isPublic f)
    (typeError error_228 (fn_location f)
       "Inline function should have private or internal visibility");;
  when (bool_decide (name f = "onCodeUpgrade")) (check_onCodeUpgrade f);;
  (if bool_decide (name f = "afterSignatureCheck") then
     let s := newline +:+ "Expected follow format: " +:+ dquote
              +:+ "function afterSignatureCheck(TvmSlice restOfMessageBody, TvmCell message) private inline returns (TvmSlice) { /*...*/ }"
              +:+ dquote in
     c1 ← orM (mret (negb (bool_decide (length (parameters f) = 2%nat))))
              (orM (p ← at_ (parameters f) 0;
                    mret (negb (bool_decide (category (var_type p) = TvmSlice))))
                   (p ← at_ (parameters f) 1;
                    mret (negb (bool_decide (category (var_type p) = TvmCell)))));
     when c1 (typeError error_228 (fn_location f) ("Unexpected function parameters." +:+ s));;
     c2 ← orM (mret (negb (bool_decide (length (returnParameters f) = 1%nat))))
              (p ← at_ (returnParameters f) 0;
               mret (negb (bool_decide (category (var_type p) = TvmSlice))));
     when c2 (typeError error_228 (fn_location f) ("Should return TvmSlice." +:+ s));;
     when (negb (bool_decide (visibility f = Private)))
       (typeError error_228 (fn_location f) ("Should be marked as private." +:+ s));;
     when (negb (isInline f))
       (typeError error_228 (fn_location f) ("Should be marked as inline." +:+ s))
   else mret tt);;
  mret true.

(** [TVMTypeChecker::visit(IndexRangeAccess const&)]: the array view
    [baseArrayType] is null for a base type of another class, and is read
    only by the right operand of [||]. *)
Definition visit_IndexRangeAccess (indexRangeAccess : IndexRangeAccess) : TC bool :=
  let baseType := expr_type (baseExpression indexRangeAccess) in
  let baseArrayType := to_ArrayType baseType in
  c ← orM (mret (negb (bool_decide (category baseType = Array))))
          (a ← deref baseArrayType; mret (negb (isByteArrayOrString a)));
  when c
    (typeError error_228 (ira_location indexRangeAccess)
       "Index range access is available only for bytes.");;
  mret true.

(** ** Struct keys of mappings *)

(** C++ [int]: 32 bits, two's complement; a sum outside the range wraps
    around, as the compiled code does. *)
Definition INT_MIN : Z := - 2 ^ 31.
Definition INT_MAX : Z := 2 ^ 31 - 1.

Definition int_wrap (z : Z) : Z := (z + 2 ^ 31) mod 2 ^ 32 - 2 ^ 31.

Definition int_add (a b : Z) : Z := int_wrap (a + b).

(** The two fields of [TypeInfo] the checker reads. *)
Record TypeInfoT : Type := mkTypeInfo {
  isNumeric : bool;
  numBits : Z
}.

Section MappingKey.

(** [TypeInfo] (its constructor computes the fields from a type) and
    [TvmConst::CellBitLength] are declared in TVMCommons.hpp and
    TVMConstants.hpp; the check is stated for any such pair. *)
Variable TypeInfo : Type_ → TypeInfoT.
Variable CellBitLength : Z.

Definition badFieldError (_mapping : Mapping) (member : VariableDeclaration) : Error :=
  mkError error_228 (tn_location (keyType _mapping))
    [("Bad field: ", var_location member)]
    ("If struct type is used as a key type for mapping, then "
     +:+ "fields of the struct must have integer, boolean, fixed bytes or enum type").

Definition structFitError (_mapping : Mapping) : Error :=
  mkError error_228 (tn_location (keyType _mapping)) []
    ("If struct type is used as a key type for mapping, then "
     +:+ "struct must fit in " +:+ toString_Z CellBitLength +:+ " bits").

(** The body of the loop over the members of the struct. *)
Definition visit_Mapping_member (_mapping : Mapping)
    (member : VariableDeclaration) (bitLength : Z) : TC Z :=
  let ti := TypeInfo (var_type member) in
  when (negb (isNumeric ti))
    (typeError2 error_228 (tn_location (keyType _mapping))
       [("Bad field: ", var_location member)]
       ("If struct type is used as a key type for mapping, then "
        +:+ "fields of the struct must have integer, boolean, fixed bytes or enum type"));;
  mret (int_add bitLength (numBits ti)).

(** [TVMTypeChecker::visit(const Mapping&)] *)
Definition visit_Mapping (_mapping : Mapping) : TC bool :=
  match to_UserDefinedTypeName (keyType _mapping) with
  | Some keyType' =>
      if bool_decide (category (tn_type keyType') = Struct) then
        structDefinition ← deref (to_StructType (tn_type (keyType _mapping)));
        bitLength ← forEach (members structDefinition) (visit_Mapping_member _mapping) 0;
        when (bool_decide (bitLength > CellBitLength))
          (typeError error_228 (tn_location (keyType _mapping))
             ("If struct type is used as a key type for mapping, then "
              +:+ "struct must fit in " +:+ toString_Z CellBitLength +:+ " bits"));;
        mret true
      else mret true
  | None => mret true
  end.

(** The sum of the widths of all the fields, and the errors of the
    fields that are not numeric, in the order of the fields. *)
Definition sumBits (ms : list VariableDeclaration) : Z :=
  foldr (λ member acc, numBits (TypeInfo (var_type member)) + acc) 0 ms.

Definition badFieldErrors (_mapping : Mapping) (ms : list VariableDeclaration) : list Error :=
  badFieldError _mapping
    <$> filter (λ member, isNumeric (TypeInfo (var_type member)) = false) ms.

End MappingKey.

(** Modelled from the spec: [TypeInfo] is declared in TVMCommons.hpp; the
    widths are those of section 4.5: an integer has its width in bits, a
    boolean one bit, fixed bytes eight bits a byte, an enumeration the bits
    needed for the number of its members; other types are not numeric.
    Used for the examples only. *)
Definition TypeInfo_spec (t : Type_) : TypeInfoT :=
  match t with
  | T_Integer n _ => mkTypeInfo true n
  | T_Bool => mkTypeInfo true 1
  | T_FixedBytes n => mkTypeInfo true (8 * n)
  | T_Enum n => mkTypeInfo true (Z.log2_up n)
  | _ => mkTypeInfo false 0
  end.

(** ** Features that depend on the version of the VM *)

Definition isNotSupportedVM : string :=
  " is not supported by the VM version. See " +:+ dquote +:+ "--tvm-version"
  +:+ dquote +:+ " command-line option.".

Section VersionGate.

(** [TVMVersion] is declared outside this file, with the values [ton()]
    and [gosh()] the checker compares against; [g_tvmVersion] is the
    configured one, [*GlobalParams::g_tvmVersion]. *)
Context {TVMVersion : Type} `{EqDecision TVMVersion}.
Variables ton gosh : TVMVersion.
Variable g_tvmVersion : TVMVersion.

(** [TVMTypeChecker::visit(FunctionCall const&)] *)
Definition visit_FunctionCall (_functionCall : FunctionCall) : TC bool :=
  let expressionType := expr_type (fc_expression _functionCall) in
  match category expressionType with
  | Function =>
      functionType ← deref (to_FunctionType expressionType);
      match kind functionType with
      | TVMInitCodeHash =>
          when (bool_decide (g_tvmVersion = ton))
            (typeError error_228 (fc_location _functionCall)
               (dquote +:+ "tvm.initCodeHash()" +:+ dquote +:+ isNotSupportedVM))
      | TVMCode =>
          when (bool_decide (g_tvmVersion = ton))
            (typeError error_228 (fc_location _functionCall)
               (dquote +:+ "tvm.code()" +:+ dquote +:+ isNotSupportedVM))
      | _ => mret tt
      end
  | _ => mret tt
  end;;
  when (isAwait _functionCall && bool_decide (g_tvmVersion = ton))
    (typeError error_228 (fc_location _functionCall)
       (dquote +:+ "*.await" +:+ dquote +:+ isNotSupportedVM));;
  mret true.

(** [TVMTypeChecker::visit(PragmaDirective const&)] *)
Definition visit_PragmaDirective (_pragma : PragmaDirective) : TC bool :=
  (if negb (bool_decide (literals _pragma = [])) then
     c ← andM (l0 ← at_ (literals _pragma) 0; mret (bool_decide (l0 = "copyleft")))
              (mret (bool_decide (g_tvmVersion = ton)));
     when c
       (typeError error_228 (pragma_location _pragma)
          (dquote +:+ "pragma copyleft ..." +:+ dquote +:+ isNotSupportedVM))
   else mret tt);;
  mret true.

(** [TVMTypeChecker::visit(MemberAccess const&)] *)
Definition visit_MemberAccess (_memberAccess : MemberAccess) : TC bool :=
  let member := memberName _memberAccess in
  let expression := ma_expression _memberAccess in
  match category (expr_type expression) with
  | Magic =>
      when (bool_decide (member = "storageFee"))
        (when (bool_decide (g_tvmVersion = ton))
           (typeError error_228 (ma_location _memberAccess)
              (dquote +:+ "tx.storageFee" +:+ dquote +:+ isNotSupportedVM)));;
      match to_Identifier expression with
      | Some ident =>
          when (bool_decide (ident_name ident = "gosh")
                && negb (bool_decide (g_tvmVersion = gosh)))
            (typeError error_228 (ma_location _memberAccess)
               ((((dquote +:+ "gosh.") +:+ member) +:+ dquote) +:+ isNotSupportedVM))
      | None => mret tt
      end
  | _ => mret tt
  end;;
  mret true.

(** The gated features as a table.  A feature is one of the node shapes
    of section 4.6; [supported] is the set of versions the checker
    accepts it for: all but [ton], and for the [gosh] namespace [gosh]
    alone. *)
Inductive Feature : Type :=
  | F_initCodeHash | F_code | F_await | F_copyleft | F_storageFee
  | F_gosh (member : string).

Definition featureName (ft : Feature) : string :=
  match ft with
  | F_initCodeHash => dquote +:+ "tvm.initCodeHash()" +:+ dquote
  | F_code => dquote +:+ "tvm.code()" +:+ dquote
  | F_await => dquote +:+ "*.await" +:+ dquote
  | F_copyleft => dquote +:+ "pragma copyleft ..." +:+ dquote
  | F_storageFee => dquote +:+ "tx.storageFee" +:+ dquote
  | F_gosh member => ((dquote +:+ "gosh.") +:+ member) +:+ dquote
  end.

Definition supported (ft : Feature) (v : TVMVersion) : bool :=
  match ft with
  | F_gosh _ => bool_decide (v = gosh)
  | _ => negb (bool_decide (v = ton))
  end.

Definition notSupportedError (loc : SourceLocation) (ft : Feature) : Error :=
  mkError error_228 loc [] (featureName ft +:+ isNotSupportedVM).

(** The errors of a node at [loc] that uses the features [fts]. *)
Definition spec_gate (loc : SourceLocation) (fts : list Feature) : list Error :=
  notSupportedError loc <$> filter (λ ft, supported ft g_tvmVersion = false) fts.

(** The gated features a node uses, by its shape. *)
Definition spec_features_FunctionCall (_functionCall : FunctionCall) : list Feature :=
  match expr_type (fc_expression _functionCall) with
  | T_Function functionType =>
      match kind functionType with
      | TVMInitCodeHash => [F_initCodeHash]
      | TVMCode => [F_code]
      | OtherKind => []
      end
  | _ => []
  end
  ++ (if isAwait _functionCall then [F_await] else []).

Definition spec_features_PragmaDirective (_pragma : PragmaDirective) : list Feature :=
  match literals _pragma with
  | l0 :: _ => if bool_decide (l0 = "copyleft") then [F_copyleft] else []
  | [] => []
  end.

Definition spec_features_MemberAccess (_memberAccess : MemberAccess) : list Feature :=
  match expr_type (ma_expression _memberAccess) with
  | T_Magic =>
      (if bool_decide (memberName _memberAccess = "storageFee") then [F_storageFee] else [])
      ++ match to_Identifier (ma_expression _memberAccess) with
         | Some ident =>
             if bool_decide (ident_name ident = "gosh")
             then [F_gosh (memberName _memberAccess)] else []
         | None => []
         end
  | _ => []
  end.

End VersionGate.

(** ** Overrides and overloads along the hierarchy of a contract *)

(** A [std::set] of pointers is iterated in increasing order. *)
Definition set_iter (s : gset ptr) : list ptr := merge_sort Pos.le (elements s).

(** The local containers of [checkOverrideAndOverload]. *)
Record WalkState : Type := mkWalkState {
  overridedFunctions : gset ptr;
  functions : gset ptr;
  funcId2Decl : gmap N ptr
}.

Definition initialState : WalkState := mkWalkState ∅ ∅ ∅.

Section OverrideAndOverload.

(** The nodes behind the pointers, and [getAllBaseFunctions] of
    TVMCommons.hpp: the base functions of a function, the bases of its
    bases, and so on. *)
Variable fn : ptr → FunctionDefinition.
Variable contract : ptr → ContractDefinition.
Variable getAllBaseFunctions : ptr → gset ptr.

Definition sameFunctionIDError (f f2 : ptr) : Error :=
  mkError error_228 (fn_location (fn f))
    [("Declaration of the function with the same function ID: ", fn_location (fn f2))]
    "Two functions have the same functionID.".

Definition presenceError (f base : ptr) : Error :=
  mkError error_228 (fn_location (fn f))
    [("Declaration of the base function: ", fn_location (fn base))]
    "Both override and base functions should have functionID if it is defined for one of them.".

Definition valueError (f base : ptr) (id : N) : Error :=
  mkError error_228 (fn_location (fn f))
    [("Declaration of the base function: ", fn_location (fn base))]
    ("Override function should have functionID = " +:+ toString_N id +:+ ".").

Definition responsibleError (f base : ptr) : Error :=
  mkError error_228 (fn_location (fn f))
    [("Declaration of the base function: ", fn_location (fn base))]
    "Both override and base functions should be marked as responsible or not".

Definition msgError (f base : ptr) : Error :=
  mkError error_228 (fn_location (fn f))
    [("Declaration of the base function: ", fn_location (fn base))]
    "Both override and base functions should be marked as internalMsg or externalMsg.".

Definition overloadError (f ff : ptr) : Error :=
  mkError error_228 (fn_location (fn f))
    [("Another overloaded function is here:", fn_location (fn ff))]
    "Function overloading is not supported for public functions.".

(** Lines 50-66: the function ID of [f] against the IDs seen so far. *)
Definition registerFunctionID (f : ptr) (st : WalkState) : TC WalkState :=
  if bool_decide (is_Some (functionID (fn f))) then
    id ← value (functionID (fn f));
    if negb (bool_decide (funcId2Decl st !! id = None)) then
      f2 ← value (funcId2Decl st !! id);
      let bf := getAllBaseFunctions f in
      let bf2 := getAllBaseFunctions f2 in
      when (bool_decide (f2 ∉ bf) && bool_decide (f ∉ bf2))
        (f2' ← value (funcId2Decl st !! id);
         typeError2 error_228 (fn_location (fn f))
           [("Declaration of the function with the same function ID: ",
             fn_location (fn f2'))]
           "Two functions have the same functionID.");;
      mret st
    else
      mret (mkWalkState (overridedFunctions st) (functions st)
              (<[id := f]> (funcId2Decl st)))
  else mret st.

(** The test of lines 78 and 100. *)
Definition onlyOneHasID (f baseFunction : ptr) : bool :=
  (negb (bool_decide (is_Some (functionID (fn f))))
     && bool_decide (is_Some (functionID (fn baseFunction))))
  || (bool_decide (is_Some (functionID (fn f)))
     && negb (bool_decide (is_Some (functionID (fn baseFunction))))).

(** Lines 78-116: the override [f] against one of its base functions. *)
Definition checkBase (f baseFunction : ptr) : TC unit :=
  (if onlyOneHasID f baseFunction then
     typeError2 error_228 (fn_location (fn f))
       [("Declaration of the base function: ", fn_location (fn baseFunction))]
       "Both override and base functions should have functionID if it is defined for one of them."
   else if bool_decide (is_Some (functionID (fn f)))
           && negb (bool_decide (functionID (fn f) = functionID (fn baseFunction))) then
     id ← value (functionID (fn baseFunction));
     typeError2 error_228 (fn_location (fn f))
       [("Declaration of the base function: ", fn_location (fn baseFunction))]
       ("Override function should have functionID = " +:+ toString_N id +:+ ".")
   else mret tt);;
  when (negb (bool_decide (isResponsible (fn baseFunction) = isResponsible (fn f))))
    (typeError2 error_228 (fn_location (fn f))
       [("Declaration of the base function: ", fn_location (fn baseFunction))]
       "Both override and base functions should be marked as responsible or not");;
  when (onlyOneHasID f baseFunction)
    (typeError2 error_228 (fn_location (fn f))
       [("Declaration of the base function: ", fn_location (fn baseFunction))]
       "Both override and base functions should have functionID if it is defined for one of them.");;
  when (xorb (internalMsg (fn f)) (internalMsg (fn baseFunction))
        || xorb (externalMsg (fn f)) (externalMsg (fn baseFunction)))
    (typeError2 error_228 (fn_location (fn f))
       [("Declaration of the base function: ", fn_location (fn baseFunction))]
       "Both override and base functions should be marked as internalMsg or externalMsg.").

(** Lines 75-117: the body of the loop over the base functions of [f]. *)
Definition visitBase (f base : ptr) (st : WalkState) : TC WalkState :=
  let st := mkWalkState ({[base]} ∪ overridedFunctions st) (functions st)
              (funcId2Decl st) in
  checkBase f base;;
  mret st.

Definition isExempt (f : ptr) : bool :=
  isConstructor (fn f) || isReceive (fn f) || isFallback (fn f) || isOnTickTock (fn f).

(** Lines 48-120: the body of the loop over the functions of a contract. *)
Definition visitFunction (f : ptr) (st : WalkState) : TC WalkState :=
  st ← registerFunctionID f st;
  if isExempt f then mret st
  else
    st ← (if negb (bool_decide (baseFunctions (fn f) = [])) then
            forEach (baseFunctions (fn f)) (visitBase f)
              (mkWalkState ({[f]} ∪ overridedFunctions st) (functions st)
                 (funcId2Decl st))
          else mret st);
    mret (mkWalkState (overridedFunctions st) ({[f]} ∪ functions st) (funcId2Decl st)).

(** Lines 47-121: from the most basic contract to the most derived. *)
Definition hierarchyWalk (contractDefinition : ptr) : TC WalkState :=
  forEach (reverse (linearizedBaseContracts (contract contractDefinition)))
    (λ cd st, forEach (definedFunctions (contract cd)) visitFunction st)
    initialState.

(** Lines 132-150: the body of the inner loop over [functions]. *)
Definition overloadInner (st : WalkState) (f ff : ptr)
    (used : gset (ptr * ptr)) : TC (gset (ptr * ptr)) :=
  if negb (isPublic (fn ff)) then mret used
  else if bool_decide (ff ∈ overridedFunctions st) || bool_decide (f = ff) then mret used
  else if bool_decide (name (fn f) = name (fn ff)) then
    if bool_decide ((f, ff) ∉ used) then
      typeError2 error_228 (fn_location (fn f))
        [("Another overloaded function is here:", fn_location (fn ff))]
        "Function overloading is not supported for public functions.";;
      mret ({[(ff, f)]} ∪ ({[(f, ff)]} ∪ used))
    else mret used
  else mret used.

(** Lines 125-151: the body of the outer loop over [functions]. *)
Definition overloadOuter (st : WalkState) (f : ptr)
    (used : gset (ptr * ptr)) : TC (gset (ptr * ptr)) :=
  if negb (isPublic (fn f)) then mret used
  else if bool_decide (f ∈ overridedFunctions st) then mret used
  else forEach (set_iter (functions st)) (overloadInner st f) used.

Definition checkOverload (st : WalkState) : TC unit :=
  forEach (set_iter (functions st)) (overloadOuter st) ∅;;
  mret tt.

(** [TVMTypeChecker::checkOverrideAndOverload] *)
Definition checkOverrideAndOverload (contractDefinition : ptr) : TC unit :=
  st ← hierarchyWalk contractDefinition;
  checkOverload st.

(** [TVMTypeChecker::visit(ContractDefinition const&)]: the contract
    becomes the current one and its hierarchy is checked. *)
Definition visit_ContractDefinition (cd : ptr) : TC bool :=
  checkOverrideAndOverload cd;;
  mret true.

(** *** What the walk computes, as functions of the state

    The errors and the state after each step, used to state what the
    checks above do. *)

(** The functions of the hierarchy in the order of the walk. *)
Definition hierarchyFunctions (contractDefinition : ptr) : list ptr :=
  mjoin ((λ cd, definedFunctions (contract cd))
          <$> reverse (linearizedBaseContracts (contract contractDefinition))).

Definition registerFunctionID_errors (f : ptr) (st : WalkState) : list Error :=
  match functionID (fn f) with
  | Some id =>
      match funcId2Decl st !! id with
      | Some f2 =>
          if bool_decide (f2 ∉ getAllBaseFunctions f)
             && bool_decide (f ∉ getAllBaseFunctions f2)
          then [sameFunctionIDError f f2] else []
      | None => []
      end
  | None => []
  end.

Definition registerFunctionID_state (f : ptr) (st : WalkState) : WalkState :=
  match functionID (fn f) with
  | Some id =>
      match funcId2Decl st !! id with
      | Some _ => st
      | None => mkWalkState (overridedFunctions st) (functions st)
                  (<[id := f]> (funcId2Decl st))
      end
  | None => st
  end.

Definition functionIDErrors (f base : ptr) : list Error :=
  if onlyOneHasID f base then [presenceError f base]
  else match functionID (fn f), functionID (fn base) with
       | Some i, Some j => if bool_decide (i = j) then [] else [valueError f base j]
       | _, _ => []
       end.

Definition checkBase_errors (f base : ptr) : list Error :=
  functionIDErrors f base
  ++ (if bool_decide (isResponsible (fn base) = isResponsible (fn f)) then []
      else [responsibleError f base])
  ++ (if onlyOneHasID f base then [presenceError f base] else [])
  ++ (if xorb (internalMsg (fn f)) (internalMsg (fn base))
         || xorb (externalMsg (fn f)) (externalMsg (fn base))
      then [msgError f base] else []).

Definition visitFunction_errors (f : ptr) (st : WalkState) : list Error :=
  registerFunctionID_errors f st
  ++ (if isExempt f then [] else mjoin (checkBase_errors f <$> baseFunctions (fn f))).

Definition visitFunction_state (f : ptr) (st : WalkState) : WalkState :=
  let st := registerFunctionID_state f st in
  if isExempt f then st
  else
    mkWalkState
      ((if bool_decide (baseFunctions (fn f) = []) then ∅
        else {[f]} ∪ list_to_set (baseFunctions (fn f)))
       ∪ overridedFunctions st)
      ({[f]} ∪ functions st)
      (funcId2Decl st).

(** The state and the errors after the functions [l], from [st]. *)
Definition walk_state (l : list ptr) (st : WalkState) : WalkState :=
  foldl (λ st f, visitFunction_state f st) st l.

Fixpoint walk_errors (l : list ptr) (st : WalkState) : list Error :=
  match l with
  | [] => []
  | f :: l' => visitFunction_errors f st ++ walk_errors l' (visitFunction_state f st)
  end.

(** The functions the walk collects, and the functions it marks as
    overriding or overridden. *)
Definition collected (contractDefinition : ptr) : list ptr :=
  filter (λ f, isExempt f = false) (hierarchyFunctions contractDefinition).

Definition overridden (contractDefinition : ptr) (x : ptr) : Prop :=
  ∃ g, g ∈ collected contractDefinition ∧ baseFunctions (fn g) ≠ []
       ∧ (x = g ∨ x ∈ baseFunctions (fn g)).

(** The number of reports of an overload of [a] and [b], in either
    order. *)
Definition countOverloadReports (a b : ptr) (errs : list Error) : nat :=
  length (filter (λ e, e = overloadError a b ∨ e = overloadError b a) errs).

(** The functions the second part compares: the public ones that are
    not marked; two of them are overloads of a name when they are
    distinct and have the same name. *)
Definition comparable (st : WalkState) (f : ptr) : Prop :=
  isPublic (fn f) = true ∧ f ∉ overridedFunctions st.

Definition overloads (st : WalkState) (f ff : ptr) : Prop :=
  comparable st f ∧ comparable st ff ∧ f ≠ ff ∧ name (fn f) = name (fn ff).

(** Whether the pair is in [used]: 1 or 0. *)
Definition marked (a b : ptr) (used : gset (ptr * ptr)) : nat :=
  if decide ((a, b) ∈ used) then 1%nat else 0%nat.

Definition symmetric (used : gset (ptr * ptr)) : Prop :=
  ∀ x y, (x, y) ∈ used → (y, x) ∈ used.

End OverrideAndOverload.

(** ** The errors of the checks of single nodes *)

Definition functionIDZeroError (f : FunctionDefinition) : Error :=
  mkError error_228 (fn_location f) []
    "functionID can't be equal to zero because this value is reserved for receive function.".

Definition inlineVisibilityError (f : FunctionDefinition) : Error :=
  mkError error_228 (fn_location f) []
    "Inline function should have private or internal visibility".

Definition onCodeUpgrade_signature : string :=
  newline +:+ "function onCodeUpgrade(...) (internal|private) { /*...*/ }".

Definition returnsError (r : VariableDeclaration) : Error :=
  mkError error_228 (var_location r) []
    ("Function mustn't return any parameters. Expected function signature:"
     +:+ onCodeUpgrade_signature).

Definition badVisibilityError (f : FunctionDefinition) : Error :=
  mkError error_228 (fn_location f) []
    ("Bad function visibility. Expected function signature:"
     +:+ onCodeUpgrade_signature).

Definition onCodeUpgrade_returnErrors (f : FunctionDefinition) : list Error :=
  match returnParameters f with
  | r :: _ => [returnsError r]
  | [] => []
  end.

Definition onCodeUpgrade_visibilityErrors (f : FunctionDefinition) : list Error :=
  if isPublic f then [badVisibilityError f] else [].

Definition functionIDPlacementError (f : FunctionDefinition) : Error :=
  mkError error_228 (fn_location f) []
    "Only public/external functions and function `onCodeUpgrade` can have functionID.".

Definition functionIDRoleError (f : FunctionDefinition) : Error :=
  mkError error_228 (fn_location f) []
    "functionID isn't supported for receive, fallback, onBounce and onTickTock functions.".

(** The errors of the first five checks of [visit_FunctionDefinition]. *)
Definition functionErrors (f : FunctionDefinition) : list (list Error) :=
  [ if bool_decide (functionID f = Some 0%N) then [functionIDZeroError f] else [];
    if bool_decide (is_Some (functionID f))
       && (negb (isPublic f) && negb (bool_decide (name f = "onCodeUpgrade")))
    then [functionIDPlacementError f] else [];
    if bool_decide (is_Some (functionID f))
       && (isReceive f || isFallback f || isOnTickTock f || isOnBounce f)
    then [functionIDRoleError f] else [];
    if isInline f && isPublic f then [inlineVisibilityError f] else [];
    if bool_decide (name f = "onCodeUpgrade")
    then onCodeUpgrade_returnErrors f ++ onCodeUpgrade_visibilityErrors f
    else [] ].

Definition indexRangeError (n : IndexRangeAccess) : Error :=
  mkError error_228 (ira_location n) []
    "Index range access is available only for bytes.".

(** ** Example programs *)

Definition ex_loc (n : Z) : SourceLocation := mkLoc n (n + 20) "Contracts.sol".

(** A function without parameters and results, with its name, the offset
    of its declaration, its visibility, its function ID, its message flags
    and its base functions. *)
Definition ex_function (nm : string) (start : Z) (v : Visibility) (id : option N)
    (internal external : bool) (bases : list ptr) : FunctionDefinition :=
  mkFunctionDefinition nm (ex_loc start) v
    (bool_decide (v = Public ∨ v = External)) id
    false false false false false false internal external false [] [] bases.

(** A public constructor: constructors have no name. *)
Definition ex_constructor (start : Z) : FunctionDefinition :=
  mkFunctionDefinition EmptyString (ex_loc start) Public true None
    true false false false false false false false false [] [] [].

(** [contract A { ... } contract B is A { ... }]: [A], at address 1, defines
    the function at address 10; [B], at address 2, the function at 20. *)
Definition ex_contracts (p : ptr) : ContractDefinition :=
  match p with
  | 1%positive => mkContractDefinition [1%positive] [10%positive]
  | 2%positive => mkContractDefinition [2%positive; 1%positive] [20%positive]
  | _ => mkContractDefinition [] []
  end.

(** [A.f] is [externalMsg]; [B.f] overrides it and is [internalMsg]. *)
Definition ex_msgFlags (p : ptr) : FunctionDefinition :=
  match p with
  | 10%positive => ex_function "f" 100 Public None false true []
  | _ => ex_function "f" 200 Public None true false [10%positive]
  end.

(** [A.f] has the function ID 10; [B.f] overrides it and has none. *)
Definition ex_idPresence (p : ptr) : FunctionDefinition :=
  match p with
  | 10%positive => ex_function "f" 100 Public (Some 10%N) false false []
  | _ => ex_function "f" 200 Public None false false [10%positive]
  end.

(** [A.f] and [B.g] have the function ID 5. *)
Definition ex_sameID (p : ptr) : FunctionDefinition :=
  match p with
  | 10%positive => ex_function "f" 100 Public (Some 5%N) false false []
  | _ => ex_function "g" 200 Public (Some 5%N) false false []
  end.

(** [A] and [B] have a public constructor each. *)
Definition ex_constructors (p : ptr) : FunctionDefinition :=
  match p with
  | 10%positive => ex_constructor 100
  | _ => ex_constructor 200
  end.

(** [A] and [B] have a public function [g] each, and [B.g] does not
    override [A.g]. *)
Definition ex_overloads (p : ptr) : FunctionDefinition :=
  match p with
  | 10%positive => ex_function "g" 100 Public None false false []
  | _ => ex_function "g" 200 Public None false false []
  end.

(** Modelled from the spec: [getAllBaseFunctions] is defined in
    TVMCommons.cpp; section 3 has it as all the base functions reachable
    from a function.  [depth] bounds the length of the chains of overrides.
    Used for the examples only. *)
Fixpoint getAllBaseFunctions_spec (fn : ptr → FunctionDefinition) (depth : nat)
    (f : ptr) : gset ptr :=
  match depth with
  | O => ∅
  | S d =>
      list_to_set (baseFunctions (fn f))
      ∪ ⋃ (getAllBaseFunctions_spec fn d <$> baseFunctions (fn f))
  end.

(** A mapping whose key is a struct of [n] fields [uint256] followed by the
    fields [more]. *)
Definition ex_field (start : Z) (t : Type_) : VariableDeclaration :=
  mkVariableDeclaration (ex_loc start) t false.

Definition ex_key (n : nat) (more : list VariableDeclaration) : StructDefinition :=
  mkStructDefinition (replicate n (ex_field 10 (T_Integer 256 false)) ++ more).

Definition ex_mapping (key : StructDefinition) : Mapping :=
  mkMapping (mkTypeName UserDefinedTypeName (ex_loc 300) (T_Struct key)).

(** [function f() private functionID(0)], [function onCodeUpgrade() public
    returns (uint256)] and [function g() public inline]. *)
Definition ex_zeroID : FunctionDefinition :=
  ex_function "f" 100 Private (Some 0%N) false false [].

Definition ex_onCodeUpgrade : FunctionDefinition :=
  mkFunctionDefinition "onCodeUpgrade" (ex_loc 100) Public true None
    false false false false false false false false false
    [] [ex_field 150 (T_Integer 256 false)] [].

Definition ex_inline : FunctionDefinition :=
  mkFunctionDefinition "g" (ex_loc 100) Public true None
    false false false false false false false false true [] [] [].

(** [x[1:2]] for [x] of type [uint256]. *)
Definition ex_indexRange : IndexRangeAccess :=
  mkIndexRangeAccess (mkExpression (T_Integer 256 false) None) (ex_loc 400).

(** Three versions of the VM. *)
Inductive ex_TVMVersion : Type := ex_ton | ex_ever | ex_gosh.

Global Instance ex_TVMVersion_eq_dec : EqDecision ex_TVMVersion.
Proof. solve_decision. Defined.

(** ** The errors of the check of [afterSignatureCheck] *)

Definition afterSignatureCheck_format : string :=
  newline +:+ "Expected follow format: " +:+ dquote
  +:+ "function afterSignatureCheck(TvmSlice restOfMessageBody, TvmCell message) private inline returns (TvmSlice) { /*...*/ }"
  +:+ dquote.

Definition badParametersError (f : FunctionDefinition) : Error :=
  mkError error_228 (fn_location f) []
    ("Unexpected function parameters." +:+ afterSignatureCheck_format).

Definition badReturnError (f : FunctionDefinition) : Error :=
  mkError error_228 (fn_location f) []
    ("Should return TvmSlice." +:+ afterSignatureCheck_format).

Definition notPrivateError (f : FunctionDefinition) : Error :=
  mkError error_228 (fn_location f) []
    ("Should be marked as private." +:+ afterSignatureCheck_format).

Definition notInlineError (f : FunctionDefinition) : Error :=
  mkError error_228 (fn_location f) []
    ("Should be marked as inline." +:+ afterSignatureCheck_format).

(** The parameters are a [TvmSlice] and a [TvmCell], in this order; the
    return parameters are one [TvmSlice]. *)
Definition hasCanonicalParameters (f : FunctionDefinition) : bool :=
  match parameters f with
  | [p0; p1] =>
      bool_decide (category (var_type p0) = TvmSlice)
      && bool_decide (category (var_type p1) = TvmCell)
  | _ => false
  end.

Definition hasCanonicalReturn (f : FunctionDefinition) : bool :=
  match returnParameters f with
  | [r] => bool_decide (category (var_type r) = TvmSlice)
  | _ => false
  end.

Definition afterSignatureCheck_errors (f : FunctionDefinition) : list Error :=
  if bool_decide (name f = "afterSignatureCheck") then
    (if hasCanonicalParameters f then [] else [badParametersError f])
    ++ (if hasCanonicalReturn f then [] else [badReturnError f])
    ++ (if bool_decide (visibility f = Private) then [] else [notPrivateError f])
    ++ (if isInline f then [] else [notInlineError f])
  else [].

Definition stateVariableError (v : VariableDeclaration) : Error :=
  mkError error_228 (var_location v) []
    "This type can't be used for state variables.".

(** ** Further example programs *)

(** [function f() internal], and the hook
    [function afterSignatureCheck(TvmSlice, TvmCell) private inline returns (TvmSlice)]
    with the visibility [v]. *)
Definition ex_plain : FunctionDefinition :=
  ex_function "f" 100 Internal None false false [].

Definition ex_afterSignatureCheck (v : Visibility) : FunctionDefinition :=
  mkFunctionDefinition "afterSignatureCheck" (ex_loc 100) v
    (bool_decide (v = Public ∨ v = External)) None
    false false false false false false false false true
    [ex_field 120 T_TvmSlice; ex_field 140 T_TvmCell] [ex_field 160 T_TvmSlice] [].

(** [mapping(uint256 => ...)] *)
Definition ex_mapping_uint : Mapping :=
  mkMapping (mkTypeName ElementaryTypeName (ex_loc 300) (T_Integer 256 false)).

(** [gosh.commit] *)
Definition ex_gosh_access : MemberAccess :=
  mkMemberAccess "commit" (mkExpression T_Magic (Some (mkIdentifier "gosh"))) (ex_loc 500).

(** [A.f] has the function ID 10; [B.f] overrides it with the function ID
    [id]. *)
Definition ex_idValue (id : N) (p : ptr) : FunctionDefinition :=
  match p with
  | 10%positive => ex_function "f" 100 Public (Some 10%N) false false []
  | _ => ex_function "f" 200 Public (Some id) false false [10%positive]
  end.

(** * Properties *)

(** ** The writer monad *)

Example toString_10 : toString_N 10 = "10".
Proof. reflexivity. Qed.

Example toString_1023 : toString_Z 1023 = "1023".
Proof. reflexivity. Qed.

Lemma bind_Some {A B} (m : TC A) (k : A → TC B) a w b w' :
  m = Some (a, w) → k a = Some (b, w') → m ≫= k = Some (b, w ++ w').
Proof. intros -> Hk. unfold mbind, TC_bind. by rewrite Hk. Qed.

Lemma when_typeError b id loc msg :
  when b (typeError id loc msg) = Some (tt, if b then [mkError id loc [] msg] else []).
Proof. by destruct b. Qed.

Lemma when_typeError2 b id loc sec msg :
  when b (typeError2 id loc sec msg) = Some (tt, if b then [mkError id loc sec msg] else []).
Proof. by destruct b. Qed.

Lemma forEach_app {A S} (l1 l2 : list A) (body : A → S → TC S) s :
  forEach (l1 ++ l2) body s = forEach l1 body s ≫= forEach l2 body.
Proof.
  revert s. induction l1 as [|x l1 IH]; intros s; simpl.
  - unfold mbind, TC_bind, mret, TC_ret.
    by destruct (forEach l2 body s) as [[? ?]|].
  - unfold mbind, TC_bind. destruct (body x s) as [[s1 w1]|]; [|done].
    rewrite IH. unfold mbind, TC_bind.
    destruct (forEach l1 body s1) as [[s2 w2]|]; [|done].
    destruct (forEach l2 body s2) as [[s3 w3]|]; [|done].
    by rewrite app_assoc.
Qed.

(** A loop whose body always runs to its end runs to its end. *)
Lemma forEach_total {A S} (l : list A) (body : A → S → TC S) s :
  (∀ x s, is_Some (body x s)) → is_Some (forEach l body s).
Proof.
  intros Hbody. revert s. induction l as [|x l IH]; intros s; simpl; [done|].
  destruct (Hbody x s) as [[s1 w1] H1].
  destruct (IH s1) as [[s2 w2] H2].
  unfold mbind, TC_bind. rewrite H1, H2. done.
Qed.

(** ** C10: index range access *)

(** C10. The check of an index range access runs to its end for every type
    of the base expression and returns [true]; when the category of the
    type is not [Array], the array view is null, the right operand of [||]
    that would read it is not evaluated, and the one error of the check is
    reported. *)
Theorem C10_visit_IndexRangeAccess_total (n : IndexRangeAccess) :
  (∃ w, visit_IndexRangeAccess n = Some (true, w)) ∧
  (category (expr_type (baseExpression n)) ≠ Array →
     to_ArrayType (expr_type (baseExpression n)) = None ∧
     visit_IndexRangeAccess n = Some (true, [indexRangeError n])).
Proof.
  unfold visit_IndexRangeAccess, indexRangeError.
  destruct (expr_type (baseExpression n)) as [| | | |[b]| | | | | |];
    simpl; split; try (intros Hc; split); try done;
    try (eexists; reflexivity).
  destruct b; eexists; reflexivity.
Qed.

(** ** C6, C8, C9: checks of a function definition *)

Lemma check_onCodeUpgrade_errors f :
  check_onCodeUpgrade f
  = Some (tt, onCodeUpgrade_returnErrors f ++ onCodeUpgrade_visibilityErrors f).
Proof.
  unfold check_onCodeUpgrade, onCodeUpgrade_returnErrors, onCodeUpgrade_visibilityErrors.
  destruct (returnParameters f) as [|r rs]; destruct (isPublic f); reflexivity.
Qed.

(** [visit_FunctionDefinition] runs to its end and reports the errors of
    its checks in their order, those of the check of [afterSignatureCheck]
    last. *)
Lemma visit_FunctionDefinition_errors f :
  ∃ w, visit_FunctionDefinition f = Some (true, concat (functionErrors f) ++ w).
Proof.
  unfold visit_FunctionDefinition.
  rewrite !when_typeError.
  assert (Hup : when (bool_decide (name f = "onCodeUpgrade")) (check_onCodeUpgrade f)
                = Some (tt, if bool_decide (name f = "onCodeUpgrade")
                            then onCodeUpgrade_returnErrors f ++ onCodeUpgrade_visibilityErrors f
                            else [])).
  { rewrite check_onCodeUpgrade_errors. by destruct (bool_decide _). }
  rewrite Hup. clear Hup.
  match goal with
  | |- context [if bool_decide (name f = "afterSignatureCheck") then ?m else ?m'] =>
      assert (Hsig : ∃ w, (if bool_decide (name f = "afterSignatureCheck") then m else m')
                          = Some (tt, w))
  end.
  { destruct (bool_decide (name f = "afterSignatureCheck")); [|by eexists].
    destruct (parameters f) as [|p0 [|p1 [|p2 ps]]];
      destruct (returnParameters f) as [|r0 [|r1 rs]];
      destruct (isInline f); simpl;
      repeat (destruct (bool_decide _); simpl);
      eexists; reflexivity. }
  destruct Hsig as [w6 ->]. exists w6.
  unfold functionErrors.
  destruct (functionID f) as [v|]; simpl.
  - rewrite when_typeError. simpl.
    replace (bool_decide (Some v = Some 0%N)) with (bool_decide (v = 0%N))
      by (apply bool_decide_ext; split; congruence).
    rewrite !app_nil_r, <- !app_assoc. reflexivity.
  - rewrite !app_nil_r, <- !app_assoc. reflexivity.
Qed.

(** C6. A function whose explicit function ID is zero is reported, whatever
    its visibility and its role flags are. *)
Theorem C6_functionID_zero_rejected (f : FunctionDefinition) :
  functionID f = Some 0%N →
  ∃ w, visit_FunctionDefinition f = Some (true, w) ∧ functionIDZeroError f ∈ w.
Proof.
  intros Hid. destruct (visit_FunctionDefinition_errors f) as (w & ->).
  eexists; split; [reflexivity|].
  unfold functionErrors. rewrite (bool_decide_true (functionID f = _)) by done.
  apply elem_of_app; left. simpl. apply elem_of_cons. by left.
Qed.

(** C9. A function that is inline and public is reported: an inline
    function should be private or internal. *)
Theorem C9_inline_public_rejected (f : FunctionDefinition) :
  isInline f = true → isPublic f = true →
  ∃ w, visit_FunctionDefinition f = Some (true, w) ∧ inlineVisibilityError f ∈ w.
Proof.
  intros Hin Hpub. destruct (visit_FunctionDefinition_errors f) as (w & ->).
  eexists; split; [reflexivity|].
  unfold functionErrors. rewrite Hin, Hpub.
  apply elem_of_app; left. simpl.
  rewrite !elem_of_app. do 3 right. by left.
Qed.

(** C8. For a function named [onCodeUpgrade], the check of the return
    parameters and the check of the visibility are made one after the
    other, each reporting its own error whatever the other found: the
    errors of the hook are those of the first check followed by those of
    the second, and a public hook with return parameters gets exactly
    two. *)
Theorem C8_onCodeUpgrade_independent_checks (f : FunctionDefinition) :
  name f = "onCodeUpgrade" →
  check_onCodeUpgrade f
    = Some (tt, onCodeUpgrade_returnErrors f ++ onCodeUpgrade_visibilityErrors f) ∧
  (∃ w1 w2, visit_FunctionDefinition f
            = Some (true, w1 ++ (onCodeUpgrade_returnErrors f
                                 ++ onCodeUpgrade_visibilityErrors f) ++ w2)) ∧
  (returnParameters f ≠ [] ↔ ∃ r, onCodeUpgrade_returnErrors f = [returnsError r]) ∧
  (returnParameters f = [] ↔ onCodeUpgrade_returnErrors f = []) ∧
  (isPublic f = true ↔ onCodeUpgrade_visibilityErrors f = [badVisibilityError f]) ∧
  (isPublic f = false ↔ onCodeUpgrade_visibilityErrors f = []) ∧
  (∀ r, returnsError r ≠ badVisibilityError f) ∧
  (returnParameters f ≠ [] → isPublic f = true →
   length (onCodeUpgrade_returnErrors f ++ onCodeUpgrade_visibilityErrors f) = 2%nat).
Proof.
  intros Hname. split; [apply check_onCodeUpgrade_errors|]. split.
  { destruct (visit_FunctionDefinition_errors f) as (w & ->).
    exists (concat (take 4 (functionErrors f))), w.
    unfold functionErrors. rewrite !(bool_decide_true (name f = _)) by done.
    simpl. rewrite !app_nil_r, <- !app_assoc. reflexivity. }
  unfold onCodeUpgrade_returnErrors, onCodeUpgrade_visibilityErrors.
  destruct (returnParameters f) as [|r rs], (isPublic f);
    repeat split. 
  all: try done.
  all: try (intros; by eexists). all: try (by intros [? ?]).
Qed.

(** ** C5: struct keys of mappings *)

Lemma int_wrap_small z : INT_MIN ≤ z ≤ INT_MAX → int_wrap z = z.
Proof.
  unfold INT_MIN, INT_MAX, int_wrap. intros Hz.
  rewrite Z.mod_small by lia. lia.
Qed.

Lemma int_wrap_add_l a b : int_wrap (int_wrap a + b) = int_wrap (a + b).
Proof.
  unfold int_wrap.
  replace ((a + 2 ^ 31) `mod` 2 ^ 32 - 2 ^ 31 + b + 2 ^ 31)
    with ((a + 2 ^ 31) `mod` 2 ^ 32 + b) by lia.
  rewrite Zplus_mod_idemp_l. f_equal. f_equal. lia.
Qed.

Lemma int_wrap_idem z : int_wrap (int_wrap z) = int_wrap z.
Proof. pose proof (int_wrap_add_l z 0) as H. by rewrite !Z.add_0_r in H. Qed.

Section MappingKeyProperties.

Variable TypeInfo : Type_ → TypeInfoT.
Variable CellBitLength : Z.

Lemma visit_Mapping_member_errors _mapping member bitLength :
  visit_Mapping_member TypeInfo _mapping member bitLength
  = Some (int_add bitLength (numBits (TypeInfo (var_type member))),
          if isNumeric (TypeInfo (var_type member)) then []
          else [badFieldError _mapping member]).
Proof.
  unfold visit_Mapping_member. by destruct (isNumeric _).
Qed.

(** The loop over the fields reports every field that is not numeric and
    adds up the widths of all of them, in [int] arithmetic. *)
Lemma visit_Mapping_members _mapping ms acc :
  int_wrap acc = acc →
  forEach ms (visit_Mapping_member TypeInfo _mapping) acc
  = Some (int_wrap (acc + sumBits TypeInfo ms), badFieldErrors TypeInfo _mapping ms).
Proof.
  revert acc. induction ms as [|member ms IH]; intros acc Hacc; cbn [forEach].
  - simpl. by rewrite Z.add_0_r, Hacc.
  - rewrite visit_Mapping_member_errors. simpl.
    rewrite IH by apply int_wrap_idem.
    unfold int_add. rewrite int_wrap_add_l, Z.add_assoc.
    unfold badFieldErrors. rewrite filter_cons.
    by destruct (isNumeric (TypeInfo (var_type member))).
Qed.

Lemma structFitError_not_badField _mapping ms :
  structFitError CellBitLength _mapping ∉ badFieldErrors TypeInfo _mapping ms.
Proof.
  unfold badFieldErrors. intros (member & Heq & _)%list_elem_of_fmap.
  unfold structFitError, badFieldError in Heq. discriminate Heq.
Qed.

(** C5. For a mapping whose key is a user-defined struct, the check
    reports each field that is not numeric and, whatever these are, adds
    up the widths of all the fields: a sum equal to [CellBitLength] adds
    no error about the width, and a greater sum (within the range of the
    [int] that holds it) adds exactly one, which names the limit. *)
Theorem C5_struct_key_width (_mapping : Mapping) (sd : StructDefinition) :
  INT_MIN ≤ CellBitLength ≤ INT_MAX →
  tn_kind (keyType _mapping) = UserDefinedTypeName →
  tn_type (keyType _mapping) = T_Struct sd →
  let total := sumBits TypeInfo (members sd) in
  let bad := badFieldErrors TypeInfo _mapping (members sd) in
  (total = CellBitLength →
     visit_Mapping TypeInfo CellBitLength _mapping = Some (true, bad)) ∧
  (CellBitLength < total ≤ INT_MAX →
     visit_Mapping TypeInfo CellBitLength _mapping
     = Some (true, bad ++ [structFitError CellBitLength _mapping])) ∧
  structFitError CellBitLength _mapping ∉ bad.
Proof.
  intros HC Hkind Htype total bad.
  assert (Hrun : INT_MIN ≤ total ≤ INT_MAX →
            visit_Mapping TypeInfo CellBitLength _mapping
            = Some (true, bad ++ if bool_decide (total > CellBitLength)
                                 then [structFitError CellBitLength _mapping]
                                 else [])).
  { intros Htotal. unfold visit_Mapping, to_UserDefinedTypeName.
    rewrite Hkind, Htype. simpl.
    rewrite visit_Mapping_members by reflexivity.
    rewrite Z.add_0_l, int_wrap_small by done.
    cbn [mbind TC_bind]. rewrite when_typeError. simpl. fold total bad.
    by rewrite app_nil_r. }
  split; [|split].
  - intros Heq. rewrite Hrun by lia.
    rewrite bool_decide_false by lia. by rewrite app_nil_r.
  - intros Hgt. rewrite Hrun by lia.
    by rewrite bool_decide_true by lia.
  - apply structFitError_not_badField.
Qed.

(** *** Further properties of the check of a mapping *)

(** The check of a struct key in full: the sum of the widths is the one
    the [int] holds. *)
Lemma visit_Mapping_struct _mapping sd :
  tn_kind (keyType _mapping) = UserDefinedTypeName →
  tn_type (keyType _mapping) = T_Struct sd →
  visit_Mapping TypeInfo CellBitLength _mapping
  = Some (true, badFieldErrors TypeInfo _mapping (members sd)
                ++ if bool_decide (int_wrap (sumBits TypeInfo (members sd)) > CellBitLength)
                   then [structFitError CellBitLength _mapping] else []).
Proof.
  intros Hkind Htype. unfold visit_Mapping, to_UserDefinedTypeName.
  rewrite Hkind, Htype. simpl.
  rewrite visit_Mapping_members by reflexivity.
  rewrite Z.add_0_l. cbn [mbind TC_bind]. rewrite when_typeError. simpl.
  by rewrite app_nil_r.
Qed.

(** X10. A mapping whose key is not a user-defined type name, or is one whose
    type is not a struct, gets no error. *)
Theorem non_struct_key_accepted (_mapping : Mapping) :
  tn_kind (keyType _mapping) ≠ UserDefinedTypeName
  ∨ category (tn_type (keyType _mapping)) ≠ Struct →
  visit_Mapping TypeInfo CellBitLength _mapping = Some (true, []).
Proof.
  unfold visit_Mapping, to_UserDefinedTypeName. intros [Hkind|Hcat].
  - by destruct (tn_kind (keyType _mapping)).
  - destruct (tn_kind (keyType _mapping)); try done.
    by rewrite bool_decide_false.
Qed.

Lemma badFieldErrors_nil _mapping ms :
  badFieldErrors TypeInfo _mapping ms = []
  ↔ Forall (λ member, isNumeric (TypeInfo (var_type member)) = true) ms.
Proof.
  unfold badFieldErrors. induction ms as [|m ms IH].
  - split; [constructor|done].
  - rewrite Forall_cons. destruct (isNumeric (TypeInfo (var_type m))) eqn:Hn.
    + rewrite filter_cons_False by congruence. rewrite IH.
      split; [by intros ?|by intros [_ ?]].
    + rewrite filter_cons_True by done. split; [done|]. by intros [? _].
Qed.

(** X11. A struct key is accepted exactly when all its fields are numeric and
    the sum of their widths is at most [CellBitLength]; the sum is taken
    within the range of the [int] that holds it. *)
Theorem struct_key_accepted_iff (_mapping : Mapping) (sd : StructDefinition) :
  tn_kind (keyType _mapping) = UserDefinedTypeName →
  tn_type (keyType _mapping) = T_Struct sd →
  INT_MIN ≤ sumBits TypeInfo (members sd) ≤ INT_MAX →
  visit_Mapping TypeInfo CellBitLength _mapping = Some (true, [])
  ↔ Forall (λ member, isNumeric (TypeInfo (var_type member)) = true) (members sd)
    ∧ sumBits TypeInfo (members sd) ≤ CellBitLength.
Proof.
  intros Hkind Htype Hrange.
  rewrite (visit_Mapping_struct _ sd Hkind Htype), int_wrap_small by done.
  rewrite <- badFieldErrors_nil. split.
  - intros [= Happ]. apply app_nil in Happ as [Hbad Hfit].
    split; [done|]. case_bool_decide; [done|lia].
  - intros [-> Hle]. by rewrite bool_decide_false by lia.
Qed.

(** X12. For every struct key, each field that is not numeric is reported once,
    in the order of the fields and with the location of the field as the
    secondary location, whatever the widths are; after these errors comes
    at most the one error of the width. *)
Theorem bad_fields_each_reported (_mapping : Mapping) (sd : StructDefinition) :
  tn_kind (keyType _mapping) = UserDefinedTypeName →
  tn_type (keyType _mapping) = T_Struct sd →
  ∃ bad fit,
    visit_Mapping TypeInfo CellBitLength _mapping = Some (true, bad ++ fit) ∧
    (fit = [] ∨ fit = [structFitError CellBitLength _mapping]) ∧
    secondary <$> bad
    = (λ member, [("Bad field: ", var_location member)])
      <$> filter (λ member, isNumeric (TypeInfo (var_type member)) = false) (members sd) ∧
    Forall (λ e, location e = tn_location (keyType _mapping)) bad.
Proof.
  intros Hkind Htype. eexists _, _.
  split; [apply (visit_Mapping_struct _ sd Hkind Htype)|].
  split; [case_bool_decide; auto|]. unfold badFieldErrors. split.
  - by rewrite <- list_fmap_compose.
  - apply Forall_forall. by intros e (m & -> & _)%list_elem_of_fmap.
Qed.

End MappingKeyProperties.

(** ** C7: features that depend on the version of the VM *)

Section VersionGateProperties.

Context {TVMVersion : Type} `{EqDecision TVMVersion}.
Variables ton gosh : TVMVersion.
Variable g_tvmVersion : TVMVersion.

Lemma visit_FunctionCall_gate fc :
  visit_FunctionCall ton g_tvmVersion fc
  = Some (true, spec_gate ton gosh g_tvmVersion (fc_location fc)
                  (spec_features_FunctionCall fc)).
Proof.
  unfold visit_FunctionCall, spec_features_FunctionCall, spec_gate.
  destruct (expr_type (fc_expression fc)) as [| | | | | |[[]]| | | |];
    destruct (isAwait fc); simpl;
    rewrite ?filter_cons, ?filter_nil; simpl;
    destruct (bool_decide (g_tvmVersion = ton)); reflexivity.
Qed.

Lemma visit_PragmaDirective_gate p :
  visit_PragmaDirective ton g_tvmVersion p
  = Some (true, spec_gate ton gosh g_tvmVersion (pragma_location p)
                  (spec_features_PragmaDirective p)).
Proof.
  unfold visit_PragmaDirective, spec_features_PragmaDirective, spec_gate.
  destruct (literals p) as [|l0 ls]; simpl; [reflexivity|].
  destruct (bool_decide (l0 = "copyleft")); simpl;
    rewrite ?filter_cons, ?filter_nil; simpl;
    destruct (bool_decide (g_tvmVersion = ton)); reflexivity.
Qed.

Lemma visit_MemberAccess_gate ma :
  visit_MemberAccess ton gosh g_tvmVersion ma
  = Some (true, spec_gate ton gosh g_tvmVersion (ma_location ma)
                  (spec_features_MemberAccess ma)).
Proof.
  unfold visit_MemberAccess, spec_features_MemberAccess, spec_gate.
  destruct (expr_type (ma_expression ma)); simpl; try reflexivity.
  destruct (bool_decide (memberName ma = "storageFee"));
    destruct (to_Identifier (ma_expression ma)) as [ident|]; simpl;
    try destruct (bool_decide (ident_name ident = "gosh")); simpl;
    rewrite ?filter_cons, ?filter_nil; simpl;
    destruct (bool_decide (g_tvmVersion = ton));
    destruct (bool_decide (g_tvmVersion = gosh)); reflexivity.
Qed.

(** Two features with the same error are supported by the same versions. *)
Lemma notSupportedError_supported loc ft ft' v :
  notSupportedError loc ft = notSupportedError loc ft' →
  supported ton gosh ft v = supported ton gosh ft' v.
Proof.
  unfold notSupportedError. intros [= Hmsg].
  destruct ft, ft'; simpl in *; try reflexivity; discriminate Hmsg.
Qed.

Lemma spec_gate_elem_of loc fts ft :
  ft ∈ fts →
  notSupportedError loc ft ∈ spec_gate ton gosh g_tvmVersion loc fts
  ↔ supported ton gosh ft g_tvmVersion = false.
Proof.
  intros Hft. unfold spec_gate. rewrite list_elem_of_fmap. split.
  - intros (ft' & Heq & [Hns _]%list_elem_of_filter).
    by rewrite (notSupportedError_supported _ _ _ _ Heq).
  - intros Hns. exists ft. split; [done|]. by apply list_elem_of_filter.
Qed.

(** C7. Each of the three checks of version-dependent features returns
    [true] and reports exactly the errors of the table: for each gated
    feature the node uses, an error whose message is the name of the
    feature followed by the sentence naming the [--tvm-version] option,
    if and only if the configured version does not support the feature;
    a node that uses no gated feature gets no error. *)
Theorem C7_version_gate :
  (∀ fc, visit_FunctionCall ton g_tvmVersion fc
         = Some (true, spec_gate ton gosh g_tvmVersion (fc_location fc)
                         (spec_features_FunctionCall fc))) ∧
  (∀ p, visit_PragmaDirective ton g_tvmVersion p
        = Some (true, spec_gate ton gosh g_tvmVersion (pragma_location p)
                        (spec_features_PragmaDirective p))) ∧
  (∀ ma, visit_MemberAccess ton gosh g_tvmVersion ma
         = Some (true, spec_gate ton gosh g_tvmVersion (ma_location ma)
                         (spec_features_MemberAccess ma))) ∧
  (∀ loc fts ft, ft ∈ fts →
     notSupportedError loc ft ∈ spec_gate ton gosh g_tvmVersion loc fts
     ↔ supported ton gosh ft g_tvmVersion = false) ∧
  (∀ loc, spec_gate ton gosh g_tvmVersion loc [] = []) ∧
  (∀ loc ft, message (notSupportedError loc ft)
             = featureName ft +:+ " is not supported by the VM version. See "
               +:+ dquote +:+ "--tvm-version" +:+ dquote +:+ " command-line option.").
Proof.
  split; [apply visit_FunctionCall_gate|].
  split; [apply visit_PragmaDirective_gate|].
  split; [apply visit_MemberAccess_gate|].
  split; [apply spec_gate_elem_of|].
  split; reflexivity.
Qed.

(** *** Further properties of the version-dependent features *)

(** X13. On a version other than [ton], no function call and no pragma is
    reported, and on the version [gosh] no member access either. *)
Theorem only_ton_rejects_calls_and_pragmas :
  g_tvmVersion ≠ ton →
  (∀ fc, visit_FunctionCall ton g_tvmVersion fc = Some (true, [])) ∧
  (∀ p, visit_PragmaDirective ton g_tvmVersion p = Some (true, [])) ∧
  (g_tvmVersion = gosh →
   ∀ ma, visit_MemberAccess ton gosh g_tvmVersion ma = Some (true, [])).
Proof.
  intros Hton. split; [|split].
  - intros fc. unfold visit_FunctionCall. rewrite !(bool_decide_false (g_tvmVersion = ton)) by done.
    destruct (expr_type (fc_expression fc)) as [| | | | | |[[]]| | | |];
      destruct (isAwait fc); reflexivity.
  - intros p. unfold visit_PragmaDirective. rewrite !(bool_decide_false (g_tvmVersion = ton)) by done.
    destruct (literals p) as [|l0 ls]; [reflexivity|]. simpl.
    by destruct (bool_decide (l0 = "copyleft")).
  - intros Hgosh ma. unfold visit_MemberAccess.
    rewrite (bool_decide_false (g_tvmVersion = ton)) by done.
    rewrite (bool_decide_true (g_tvmVersion = gosh)) by done.
    destruct (expr_type (ma_expression ma)); try reflexivity. simpl.
    destruct (bool_decide (memberName ma = "storageFee"));
      destruct (to_Identifier (ma_expression ma)) as [ident|]; simpl;
      try destruct (bool_decide (ident_name ident = "gosh")); reflexivity.
Qed.

(** X14. On a version other than [gosh], every member of the magic identifier
    [gosh] is reported, with the name of the member in the message; the
    access gets a second error exactly when the member is [storageFee] and
    the version is [ton]. *)
Theorem gosh_namespace_rejected (ma : MemberAccess) (ident : Identifier) :
  g_tvmVersion ≠ gosh →
  category (expr_type (ma_expression ma)) = Magic →
  to_Identifier (ma_expression ma) = Some ident →
  ident_name ident = "gosh" →
  ∃ w, visit_MemberAccess ton gosh g_tvmVersion ma = Some (true, w) ∧
       notSupportedError (ma_location ma) (F_gosh (memberName ma)) ∈ w ∧
       length w = (if bool_decide (memberName ma = "storageFee")
                      && bool_decide (g_tvmVersion = ton)
                   then 2%nat else 1%nat).
Proof.
  intros Hgosh Hcat Hident Hname. unfold visit_MemberAccess.
  rewrite Hcat, Hident, Hname.
  rewrite (bool_decide_false (g_tvmVersion = gosh)) by done.
  rewrite (bool_decide_true ("gosh" = "gosh")) by done. simpl.
  destruct (bool_decide (memberName ma = "storageFee"));
    destruct (bool_decide (g_tvmVersion = ton)); simpl;
    (eexists; split; [reflexivity|]; split; [|reflexivity]).
  - apply list_elem_of_further, list_elem_of_here.
  - apply list_elem_of_here.
  - apply list_elem_of_here.
  - apply list_elem_of_here.
Qed.

End VersionGateProperties.

(** ** The walk along the hierarchy *)

#[local] Set Warnings "-clear-no-such-hyp".

Lemma forEach_concat {A B S} (g : A → list B) (l : list A) (body : B → S → TC S) s :
  forEach l (λ a s, forEach (g a) body s) s = forEach (mjoin (g <$> l)) body s.
Proof.
  revert s. induction l as [|a l IH]; intros s; [done|].
  cbn [forEach fmap list_fmap mjoin list_join]. rewrite forEach_app.
  unfold mbind, TC_bind. destruct (forEach (g a) body s) as [[s1 w1]|]; [|done].
  by rewrite IH.
Qed.

Section OverrideAndOverloadProperties.

Variable fn : ptr → FunctionDefinition.
Variable contract : ptr → ContractDefinition.
Variable getAllBaseFunctions : ptr → gset ptr.

Lemma registerFunctionID_run f st :
  registerFunctionID fn getAllBaseFunctions f st
  = Some (registerFunctionID_state fn f st,
          registerFunctionID_errors fn getAllBaseFunctions f st).
Proof.
  unfold registerFunctionID, registerFunctionID_state, registerFunctionID_errors.
  destruct (functionID (fn f)) as [id|]; simpl; [|done].
  destruct (funcId2Decl st !! id) as [f2|]; simpl; [|done].
  by destruct (bool_decide (f2 ∉ _) && bool_decide (f ∉ _)).
Qed.

Lemma checkBase_run f base :
  checkBase fn f base = Some (tt, checkBase_errors fn f base).
Proof.
  unfold checkBase, checkBase_errors, functionIDErrors.
  rewrite !when_typeError2.
  unfold onlyOneHasID.
  destruct (functionID (fn f)) as [i|], (functionID (fn base)) as [j|]; simpl;
    rewrite ?(bool_decide_ext (Some i = Some j) (i = j)) by (split; congruence);
    try destruct (bool_decide (i = j));
    destruct (bool_decide (isResponsible (fn base) = isResponsible (fn f)));
    reflexivity.
Qed.

Lemma visitBase_run f base st :
  visitBase fn f base st
  = Some (mkWalkState ({[base]} ∪ overridedFunctions st) (functions st) (funcId2Decl st),
          checkBase_errors fn f base).
Proof.
  unfold visitBase. rewrite checkBase_run. simpl. by rewrite app_nil_r.
Qed.

Lemma visitBases_run f bases st :
  forEach bases (visitBase fn f) st
  = Some (mkWalkState (list_to_set bases ∪ overridedFunctions st) (functions st)
            (funcId2Decl st),
          mjoin (checkBase_errors fn f <$> bases)).
Proof.
  revert st. induction bases as [|base bases IH]; intros st; cbn [forEach].
  - simpl. destruct st as [o fs m]. simpl.
    by replace (∅ ∪ o) with o by set_solver.
  - rewrite visitBase_run. simpl. rewrite IH. simpl.
    by replace (list_to_set bases ∪ ({[base]} ∪ overridedFunctions st))
      with ({[base]} ∪ list_to_set bases ∪ overridedFunctions st) by set_solver.
Qed.

Lemma visitFunction_run f st :
  visitFunction fn getAllBaseFunctions f st
  = Some (visitFunction_state fn f st, visitFunction_errors fn getAllBaseFunctions f st).
Proof.
  unfold visitFunction, visitFunction_state, visitFunction_errors.
  rewrite registerFunctionID_run. simpl.
  destruct (isExempt fn f); simpl; [by rewrite app_nil_r|].
  destruct (decide (baseFunctions (fn f) = [])) as [Hnil|Hcons].
  - rewrite !bool_decide_true by done. simpl. rewrite Hnil. simpl.
    rewrite !app_nil_r.
    by replace (∅ ∪ overridedFunctions (registerFunctionID_state fn f st))
      with (overridedFunctions (registerFunctionID_state fn f st)) by set_solver.
  - rewrite !bool_decide_false by done. simpl. rewrite visitBases_run. simpl.
    rewrite !app_nil_r.
    by replace (list_to_set (baseFunctions (fn f))
                ∪ ({[f]} ∪ overridedFunctions (registerFunctionID_state fn f st)))
      with ({[f]} ∪ list_to_set (baseFunctions (fn f))
            ∪ overridedFunctions (registerFunctionID_state fn f st)) by set_solver.
Qed.

Lemma walk_run l st :
  forEach l (visitFunction fn getAllBaseFunctions) st
  = Some (walk_state fn l st, walk_errors fn getAllBaseFunctions l st).
Proof.
  revert st. induction l as [|f l IH]; intros st; cbn [forEach]; [done|].
  rewrite visitFunction_run. simpl. by rewrite IH.
Qed.

Lemma hierarchyWalk_run cd :
  hierarchyWalk fn contract getAllBaseFunctions cd
  = Some (walk_state fn (hierarchyFunctions contract cd) initialState,
          walk_errors fn getAllBaseFunctions (hierarchyFunctions contract cd) initialState).
Proof.
  unfold hierarchyWalk, hierarchyFunctions.
  rewrite (forEach_concat (λ cd, definedFunctions (contract cd))).
  apply walk_run.
Qed.

Lemma walk_state_app l1 l2 st :
  walk_state fn (l1 ++ l2) st = walk_state fn l2 (walk_state fn l1 st).
Proof. apply foldl_app. Qed.

Lemma walk_errors_app l1 l2 st :
  walk_errors fn getAllBaseFunctions (l1 ++ l2) st
  = walk_errors fn getAllBaseFunctions l1 st
    ++ walk_errors fn getAllBaseFunctions l2 (walk_state fn l1 st).
Proof.
  revert st. induction l1 as [|f l1 IH]; intros st; simpl; [done|].
  by rewrite IH, app_assoc.
Qed.

(** The second part of the check runs to its end. *)
Lemma overloadInner_total st f ff used : is_Some (overloadInner fn st f ff used).
Proof.
  unfold overloadInner.
  destruct (negb _); [done|]. destruct (_ || _); [done|].
  destruct (bool_decide (name _ = _)); [|done].
  destruct (bool_decide (_ ∉ used)); done.
Qed.

Lemma overloadOuter_total st f used : is_Some (overloadOuter fn st f used).
Proof.
  unfold overloadOuter.
  destruct (negb _); [done|]. destruct (bool_decide _); [done|].
  apply forEach_total. intros. apply overloadInner_total.
Qed.

Lemma checkOverload_total st : ∃ w, checkOverload fn st = Some (tt, w).
Proof.
  unfold checkOverload.
  destruct (forEach_total (set_iter (functions st)) (overloadOuter fn st) ∅)
    as [[used w] Hrun]; [intros; apply overloadOuter_total|].
  rewrite Hrun. simpl. by eexists.
Qed.

(** The whole check runs to its end: it reports the errors of the walk,
    then those of the overloads. *)
Lemma checkOverrideAndOverload_run cd :
  ∃ w2,
    checkOverload fn (walk_state fn (hierarchyFunctions contract cd) initialState)
    = Some (tt, w2) ∧
    checkOverrideAndOverload fn contract getAllBaseFunctions cd
    = Some (tt, walk_errors fn getAllBaseFunctions (hierarchyFunctions contract cd)
                  initialState ++ w2).
Proof.
  unfold checkOverrideAndOverload. rewrite hierarchyWalk_run.
  destruct (checkOverload_total
              (walk_state fn (hierarchyFunctions contract cd) initialState))
    as [w2 Hw2].
  exists w2. split; [done|]. simpl. by rewrite Hw2.
Qed.

(** The errors of the step of a function of the hierarchy are among the
    errors of the whole check. *)
Lemma visitFunction_errors_reported cd pre f post :
  hierarchyFunctions contract cd = pre ++ f :: post →
  ∃ errs, checkOverrideAndOverload fn contract getAllBaseFunctions cd = Some (tt, errs)
          ∧ ∀ e, e ∈ visitFunction_errors fn getAllBaseFunctions f
                       (walk_state fn pre initialState) → e ∈ errs.
Proof.
  intros Hsplit.
  destruct (checkOverrideAndOverload_run cd) as (w2 & _ & ->).
  eexists; split; [done|]. intros e He.
  rewrite Hsplit, walk_errors_app. simpl.
  rewrite !elem_of_app. left; right; left. done.
Qed.

Lemma checkBase_errors_reported cd f base :
  f ∈ hierarchyFunctions contract cd → isExempt fn f = false →
  base ∈ baseFunctions (fn f) →
  ∃ errs, checkOverrideAndOverload fn contract getAllBaseFunctions cd = Some (tt, errs)
          ∧ ∀ e, e ∈ checkBase_errors fn f base → e ∈ errs.
Proof.
  intros (pre & post & Hsplit)%list_elem_of_split Hex Hbase.
  destruct (visitFunction_errors_reported cd pre f post Hsplit) as (errs & Hrun & Hin).
  exists errs. split; [done|]. intros e He. apply Hin.
  unfold visitFunction_errors. rewrite Hex. apply elem_of_app; right.
  apply list_elem_of_join. exists (checkBase_errors fn f base).
  split; [done|]. apply list_elem_of_fmap. by exists base.
Qed.

(** *** C1 and C2: an override against one of its base functions *)

Lemma checkBase_errors_msg f base :
  ∃ w, checkBase_errors fn f base
       = w ++ (if xorb (internalMsg (fn f)) (internalMsg (fn base))
                  || xorb (externalMsg (fn f)) (externalMsg (fn base))
               then [msgError fn f base] else [])
       ∧ ∀ e, e ∈ w → message e ≠ message (msgError fn f base).
Proof.
  unfold checkBase_errors.
  exists (functionIDErrors fn f base
          ++ (if bool_decide (isResponsible (fn base) = isResponsible (fn f)) then []
              else [responsibleError fn f base])
          ++ (if onlyOneHasID fn f base then [presenceError fn f base] else [])).
  split.
  { by rewrite <- !app_assoc. }
  intros e He Hmsg. unfold functionIDErrors in He.
  rewrite !elem_of_app in He.
  destruct He as [He|[He|He]]; repeat case_match;
    try (by apply elem_of_nil in He);
    apply list_elem_of_singleton in He; subst e; discriminate Hmsg.
Qed.

(** C1 (as the code has it). For an override and one of its base
    functions, the flags [internalMsg] and [externalMsg] are compared by
    one check: it reports one error, the same whichever flag differs,
    when either or both differ, and none when both agree; no other check
    of the pair reports that error. *)
Theorem C1_msg_flags_one_combined_check cd f base :
  f ∈ hierarchyFunctions contract cd → isExempt fn f = false →
  base ∈ baseFunctions (fn f) →
  ∃ w errs,
    checkBase fn f base
    = Some (tt, w ++ (if xorb (internalMsg (fn f)) (internalMsg (fn base))
                         || xorb (externalMsg (fn f)) (externalMsg (fn base))
                      then [msgError fn f base] else [])) ∧
    (∀ e, e ∈ w → message e ≠ message (msgError fn f base)) ∧
    checkOverrideAndOverload fn contract getAllBaseFunctions cd = Some (tt, errs) ∧
    (∀ e, e ∈ w ++ (if xorb (internalMsg (fn f)) (internalMsg (fn base))
                       || xorb (externalMsg (fn f)) (externalMsg (fn base))
                    then [msgError fn f base] else []) → e ∈ errs).
Proof.
  intros Hf Hex Hbase.
  destruct (checkBase_errors_msg f base) as (w & Hw & Hne).
  destruct (checkBase_errors_reported cd f base Hf Hex Hbase) as (errs & Hrun & Hin).
  exists w, errs. rewrite checkBase_run, Hw. repeat split; try done.
  intros e He. apply Hin. by rewrite Hw.
Qed.

(** When exactly one of the override and the base has a function ID, the
    error of line 83 is reported again by line 106. *)
Lemma checkBase_presence_twice f base :
  onlyOneHasID fn f base = true →
  length (filter (λ e, e = presenceError fn f base) (checkBase_errors fn f base)) = 2%nat.
Proof.
  intros Hone. unfold checkBase_errors, functionIDErrors. rewrite Hone.
  rewrite !filter_app, !length_app.
  destruct (bool_decide (isResponsible (fn base) = isResponsible (fn f)));
    destruct (xorb _ _ || xorb _ _);
    rewrite ?filter_nil, ?filter_cons;
    (rewrite ?decide_True by reflexivity);
    (rewrite ?decide_False by discriminate); reflexivity.
Qed.

(** When both have a function ID and the IDs differ, the error names the
    ID of the base and the error of the presence is not reported. *)
Lemma checkBase_value_once f base i j :
  functionID (fn f) = Some i → functionID (fn base) = Some j → i ≠ j →
  length (filter (λ e, e = valueError fn f base j) (checkBase_errors fn f base)) = 1%nat
  ∧ (presenceError fn f base ∉ checkBase_errors fn f base)
  ∧ valueError fn f base j ≠ presenceError fn f base.
Proof.
  intros Hi Hj Hne. unfold checkBase_errors, functionIDErrors, onlyOneHasID.
  rewrite Hi, Hj. simpl. rewrite bool_decide_false by done.
  split; [|split].
  - rewrite !filter_app, !length_app.
    destruct (bool_decide (isResponsible (fn base) = isResponsible (fn f)));
      destruct (xorb _ _ || xorb _ _);
      rewrite ?filter_nil, ?filter_cons;
      (rewrite ?decide_True by reflexivity);
      (rewrite ?decide_False by discriminate); reflexivity.
  - rewrite !elem_of_app. intros [He|[He|He]]; repeat case_match;
      try (by apply elem_of_nil in He);
      apply list_elem_of_singleton in He; discriminate He.
  - discriminate.
Qed.

(** *** C3: the registry of function IDs *)

(** An ID keeps the function it was first registered to. *)
Lemma visitFunction_state_registry f st id g :
  funcId2Decl st !! id = Some g →
  funcId2Decl (visitFunction_state fn f st) !! id = Some g.
Proof.
  intros Hg. unfold visitFunction_state.
  assert (funcId2Decl (registerFunctionID_state fn f st) !! id = Some g) as Hreg.
  { unfold registerFunctionID_state.
    destruct (functionID (fn f)) as [i|]; [|done].
    destruct (funcId2Decl st !! i) as [f2|] eqn:Hi; [done|]. simpl.
    rewrite lookup_insert_ne; [done|]. intros ->. congruence. }
  by destruct (isExempt fn f).
Qed.

Lemma walk_state_registry l st id g :
  funcId2Decl st !! id = Some g →
  funcId2Decl (walk_state fn l st) !! id = Some g.
Proof.
  revert st. induction l as [|f l IH]; intros st Hg; [done|].
  simpl. apply IH. by apply visitFunction_state_registry.
Qed.

Lemma visitFunction_state_register f st id :
  functionID (fn f) = Some id → funcId2Decl st !! id = None →
  funcId2Decl (visitFunction_state fn f st) !! id = Some f.
Proof.
  intros Hid Hnone. unfold visitFunction_state.
  assert (funcId2Decl (registerFunctionID_state fn f st) !! id = Some f) as Hreg.
  { unfold registerFunctionID_state. rewrite Hid, Hnone. simpl.
    apply lookup_insert_eq. }
  by destruct (isExempt fn f).
Qed.

(** C3. When the walk reaches a function [f] with an explicit function
    ID, whatever the role of [f]: if the ID is registered to a different
    function [f2] and neither is among the base functions of the other,
    the error of the shared ID is reported, at [f] and citing [f2]; if
    the ID is not registered, the step registers it to [f], and it is
    still registered to [f] when the walk ends. *)
Theorem C3_functionID_registry cd pre f post id :
  hierarchyFunctions contract cd = pre ++ f :: post →
  functionID (fn f) = Some id →
  ∃ st w,
    forEach pre (visitFunction fn getAllBaseFunctions) initialState = Some (st, w) ∧
    (∀ f2, funcId2Decl st !! id = Some f2 → f2 ≠ f →
           f2 ∉ getAllBaseFunctions f → f ∉ getAllBaseFunctions f2 →
           ∃ errs, checkOverrideAndOverload fn contract getAllBaseFunctions cd
                   = Some (tt, errs)
                   ∧ sameFunctionIDError fn f f2 ∈ errs
                   ∧ location (sameFunctionIDError fn f f2) = fn_location (fn f)
                   ∧ snd <$> secondary (sameFunctionIDError fn f f2)
                     = [fn_location (fn f2)]) ∧
    (funcId2Decl st !! id = None →
       ∃ st' w' stN wN,
         visitFunction fn getAllBaseFunctions f st = Some (st', w') ∧
         funcId2Decl st' !! id = Some f ∧
         hierarchyWalk fn contract getAllBaseFunctions cd = Some (stN, wN) ∧
         funcId2Decl stN !! id = Some f).
Proof.
  intros Hsplit Hid.
  exists (walk_state fn pre initialState),
         (walk_errors fn getAllBaseFunctions pre initialState).
  split; [apply walk_run|]. split.
  - intros f2 Hf2 _ Hbf Hbf2.
    destruct (visitFunction_errors_reported cd pre f post Hsplit) as (errs & Hrun & Hin).
    exists errs. split; [done|]. split; [|done].
    apply Hin. unfold visitFunction_errors, registerFunctionID_errors.
    rewrite Hid, Hf2. rewrite !bool_decide_true by done. simpl.
    apply elem_of_cons. by left.
  - intros Hnone. do 4 eexists.
    split; [apply visitFunction_run|].
    split; [by apply visitFunction_state_register|].
    split; [apply hierarchyWalk_run|].
    rewrite Hsplit, walk_state_app. simpl.
    apply walk_state_registry. by apply visitFunction_state_register.
Qed.

(** *** C4: overloads of public functions *)

Lemma countOverloadReports_app a b w1 w2 :
  countOverloadReports fn a b (w1 ++ w2)
  = (countOverloadReports fn a b w1 + countOverloadReports fn a b w2)%nat.
Proof. unfold countOverloadReports. by rewrite filter_app, length_app. Qed.

Lemma countOverloadReports_other a b w :
  (∀ e, e ∈ w → message e ≠ message (overloadError fn a b)) →
  countOverloadReports fn a b w = 0%nat.
Proof.
  unfold countOverloadReports. induction w as [|e w IH]; intros Hw; [done|].
  rewrite filter_cons, decide_False.
  - apply IH. intros e' He'. apply Hw. by apply elem_of_cons; right.
  - intros [->| ->]; by apply (Hw _ (list_elem_of_here _ _)).
Qed.

Lemma checkBase_errors_not_overload a b f base e :
  e ∈ checkBase_errors fn f base → message e ≠ message (overloadError fn a b).
Proof.
  unfold checkBase_errors, functionIDErrors. rewrite !elem_of_app.
  intros [He|[He|[He|He]]] Hmsg; repeat case_match;
    try (by apply elem_of_nil in He);
    apply list_elem_of_singleton in He; subst e; discriminate Hmsg.
Qed.

(** No error of the walk is a report of an overload. *)
Lemma visitFunction_errors_not_overload a b f st e :
  e ∈ visitFunction_errors fn getAllBaseFunctions f st →
  message e ≠ message (overloadError fn a b).
Proof.
  unfold visitFunction_errors, registerFunctionID_errors. rewrite elem_of_app.
  intros [He|He].
  - intros Hmsg. repeat case_match; try (by apply elem_of_nil in He);
      apply list_elem_of_singleton in He; subst e; discriminate Hmsg.
  - destruct (isExempt fn f); [by apply elem_of_nil in He|].
    apply list_elem_of_join in He as (w & He & (base & -> & _)%list_elem_of_fmap).
    by eapply checkBase_errors_not_overload.
Qed.

Lemma walk_errors_not_overload a b l st :
  countOverloadReports fn a b (walk_errors fn getAllBaseFunctions l st) = 0%nat.
Proof.
  revert st. induction l as [|f l IH]; intros st; [done|].
  simpl. rewrite countOverloadReports_app, IH.
  rewrite countOverloadReports_other; [done|].
  intros e. apply visitFunction_errors_not_overload.
Qed.

(** The sets of the state when the walk ends. *)
Lemma visitFunction_state_functions f st x :
  x ∈ functions (visitFunction_state fn f st)
  ↔ x ∈ functions st ∨ (x = f ∧ isExempt fn x = false).
Proof.
  unfold visitFunction_state.
  assert (functions (registerFunctionID_state fn f st) = functions st) as Hfs.
  { unfold registerFunctionID_state. by repeat case_match. }
  destruct (isExempt fn f) eqn:Hex; simpl; rewrite Hfs.
  - split; [by left|]. intros [?|[-> ?]]; [done|congruence].
  - rewrite elem_of_union, elem_of_singleton. split.
    + intros [->|?]; [by right|by left].
    + intros [?|[-> _]]; [by right|by left].
Qed.

Lemma walk_state_functions l st x :
  x ∈ functions (walk_state fn l st)
  ↔ x ∈ functions st ∨ (x ∈ l ∧ isExempt fn x = false).
Proof.
  revert st. induction l as [|f l IH]; intros st; simpl.
  - split; [by left|]. by intros [?|[?%elem_of_nil _]].
  - rewrite IH, visitFunction_state_functions, elem_of_cons. split.
    + intros [[?|[-> ?]]|[? ?]]; [by left|right; split; [by left|done]|].
      right; split; [by right|done].
    + intros [?|[[->|?] ?]]; [by left; left|by left; right|by right].
Qed.

Lemma visitFunction_state_overridedFunctions f st x :
  x ∈ overridedFunctions (visitFunction_state fn f st)
  ↔ x ∈ overridedFunctions st
    ∨ (isExempt fn f = false ∧ baseFunctions (fn f) ≠ []
       ∧ (x = f ∨ x ∈ baseFunctions (fn f))).
Proof.
  unfold visitFunction_state.
  assert (overridedFunctions (registerFunctionID_state fn f st)
          = overridedFunctions st) as Hov.
  { unfold registerFunctionID_state. by repeat case_match. }
  destruct (isExempt fn f) eqn:Hex; simpl; rewrite Hov.
  - split; [by left|]. by intros [?|[? _]].
  - rewrite elem_of_union. case_bool_decide as Hnil.
    + rewrite elem_of_empty. split.
      * intros [[]|?]. by left.
      * intros [?|(_ & ? & _)]; [by right|done].
    + rewrite elem_of_union, elem_of_singleton, elem_of_list_to_set. split.
      * intros [?|?]; [by right|by left].
      * intros [?|(_ & _ & ?)]; [by right|by left].
Qed.

Lemma walk_state_overridedFunctions l st x :
  x ∈ overridedFunctions (walk_state fn l st)
  ↔ x ∈ overridedFunctions st
    ∨ ∃ g, g ∈ l ∧ isExempt fn g = false ∧ baseFunctions (fn g) ≠ []
           ∧ (x = g ∨ x ∈ baseFunctions (fn g)).
Proof.
  revert st. induction l as [|f l IH]; intros st; simpl.
  - split; [by left|]. intros [?|(g & Hg%elem_of_nil & _)]; done.
  - rewrite IH, visitFunction_state_overridedFunctions. split.
    + intros [[?|(? & ? & ?)]|(g & ? & ? & ? & ?)]; [by left| |].
      * right. exists f. split; [by apply elem_of_cons; left|done].
      * right. exists g. split; [by apply elem_of_cons; right|done].
    + intros [?|(g & [->|?]%elem_of_cons & ? & ? & ?)].
      * by left; left.
      * by left; right.
      * right. by exists g.
Qed.

Lemma elem_of_set_iter (s : gset ptr) x : x ∈ set_iter s ↔ x ∈ s.
Proof. unfold set_iter. by rewrite merge_sort_Permutation, elem_of_elements. Qed.

(** A loop whose every step keeps an invariant [I], moves the state up
    in an order, counts what it reports against a measure [mu] of the
    state, and reaches a goal [G] that later steps keep. *)
Lemma forEach_invariant {A S} (body : A → S → TC S) (I : S → Prop)
    (le : S → S → Prop) (mu : S → nat) (cnt : list Error → nat)
    (G : A → S → Prop) (Q : A → Prop) :
  (∀ s, le s s) → (∀ s1 s2 s3, le s1 s2 → le s2 s3 → le s1 s3) →
  cnt [] = 0%nat → (∀ w1 w2, cnt (w1 ++ w2) = (cnt w1 + cnt w2)%nat) →
  (∀ x s s', G x s → le s s' → G x s') →
  (∀ x s, Q x → I s →
     ∃ s' w, body x s = Some (s', w) ∧ I s' ∧ le s s'
             ∧ (cnt w + mu s)%nat = mu s' ∧ G x s') →
  ∀ l s, Forall Q l → I s →
    ∃ s' w, forEach l body s = Some (s', w) ∧ I s' ∧ le s s'
            ∧ (cnt w + mu s)%nat = mu s' ∧ ∀ x, x ∈ l → G x s'.
Proof.
  intros Hrefl Htrans Hnil Happ Hmono Hstep l.
  induction l as [|x l IH]; intros s Hl Hs.
  - exists s, []. split; [done|]. split; [done|]. split; [done|].
    split; [by rewrite Hnil|]. intros x Hx. by apply elem_of_nil in Hx.
  - apply Forall_cons in Hl as [Hx Hl].
    destruct (Hstep x s Hx Hs) as (s1 & w1 & Hrun1 & Hs1 & Hle1 & Hcnt1 & HG1).
    destruct (IH s1 Hl Hs1) as (s2 & w2 & Hrun2 & Hs2 & Hle2 & Hcnt2 & HG2).
    exists s2, (w1 ++ w2). split; [|split; [done|split; [by eauto|split]]].
    + cbn [forEach]. by eapply bind_Some.
    + rewrite Happ. lia.
    + intros y [->|Hy]%elem_of_cons; [by eapply Hmono|by apply HG2].
Qed.

Section Overloads.

(** The functions under consideration have locations of their own. *)
Variable P : ptr → Prop.
Hypothesis location_inj :
  ∀ x y, P x → P y → fn_location (fn x) = fn_location (fn y) → x = y.

Variable st : WalkState.
Variables a b : ptr.
Hypothesis Pa : P a.
Hypothesis Pb : P b.

Lemma overloadError_inj f ff x y :
  P f → P ff → P x → P y →
  overloadError fn f ff = overloadError fn x y → f = x ∧ ff = y.
Proof.
  intros Hf Hff Hx Hy [= H1 H2]. split; by apply location_inj.
Qed.

Lemma countOverloadReports_one f ff :
  P f → P ff →
  countOverloadReports fn a b [overloadError fn f ff]
  = if decide ((f = a ∧ ff = b) ∨ (f = b ∧ ff = a)) then 1%nat else 0%nat.
Proof.
  intros Hf Hff. unfold countOverloadReports. rewrite filter_cons, filter_nil.
  destruct (decide ((f = a ∧ ff = b) ∨ (f = b ∧ ff = a))) as [Heq|Hne].
  - rewrite decide_True; [done|]. destruct Heq as [[-> ->]|[-> ->]]; auto.
  - rewrite decide_False; [done|].
    intros [He|He]; apply overloadError_inj in He; auto.
Qed.

(** One comparison of the inner loop: it keeps [used] symmetric, and it
    reports the pair [a], [b] exactly when it marks it. *)
Lemma overloadInner_step f ff used :
  P f → P ff → symmetric used →
  ∃ used' w,
    overloadInner fn st f ff used = Some (used', w) ∧
    symmetric used' ∧ used ⊆ used' ∧
    (countOverloadReports fn a b w + marked a b used)%nat = marked a b used' ∧
    (comparable fn st ff → f ≠ ff → name (fn f) = name (fn ff) → (f, ff) ∈ used').
Proof.
  intros Hf Hff Hsym. unfold overloadInner, comparable.
  destruct (isPublic (fn ff)) eqn:Hpub; simpl;
    [|exists used, []; repeat split; try done; by intros [? _]].
  case_bool_decide as Hov; simpl;
    [exists used, []; repeat split; try done; by intros [_ ?]|].
  case_bool_decide as Heq; simpl; [by exists used, []|].
  case_bool_decide as Hname; [|by exists used, []].
  case_bool_decide as Hused; simpl;
    [|exists used, []; repeat split; try done; intros; by apply dec_stable].
  exists ({[(ff, f)]} ∪ ({[(f, ff)]} ∪ used)), [overloadError fn f ff].
  split; [reflexivity|]. split; [|split; [|split]].
  - intros x y. rewrite !elem_of_union, !elem_of_singleton.
    intros [[= -> ->]|[[= -> ->]|Hxy]]; auto.
  - apply union_subseteq_r', union_subseteq_r.
  - rewrite countOverloadReports_one by done. unfold marked.
    assert ((a, b) ∈ ({[(ff, f)]} ∪ ({[(f, ff)]} ∪ used) : gset (ptr * ptr))
            ↔ ((f = a ∧ ff = b) ∨ (f = b ∧ ff = a)) ∨ (a, b) ∈ used) as Hiff.
    { rewrite !elem_of_union, !elem_of_singleton. split.
      - intros [[= -> ->]|[[= -> ->]|?]]; auto.
      - intros [[[-> ->]|[-> ->]]|?]; auto. }
    assert ((f = a ∧ ff = b) ∨ (f = b ∧ ff = a) → (a, b) ∉ used) as Hfresh.
    { intros [[-> ->]|[-> ->]] Hin; auto. }
    repeat case_decide; first [done | exfalso; tauto].
  - intros _ _ _. rewrite !elem_of_union, !elem_of_singleton. auto.
Qed.

(** The inner loop, for a function [f] of the outer loop. *)
Lemma overloadInner_loop f l used :
  P f → Forall P l → symmetric used →
  ∃ used' w,
    forEach l (overloadInner fn st f) used = Some (used', w) ∧
    symmetric used' ∧ used ⊆ used' ∧
    (countOverloadReports fn a b w + marked a b used)%nat = marked a b used' ∧
    ∀ ff, ff ∈ l →
      comparable fn st ff → f ≠ ff → name (fn f) = name (fn ff) → (f, ff) ∈ used'.
Proof.
  intros Hf.
  apply (forEach_invariant (overloadInner fn st f) symmetric (⊆) (marked a b)
           (countOverloadReports fn a b)
           (λ ff used', comparable fn st ff → f ≠ ff →
                        name (fn f) = name (fn ff) → (f, ff) ∈ used') P).
  - done.
  - intros s1 s2 s3 H12 H23. by transitivity s2.
  - done.
  - apply countOverloadReports_app.
  - intros ff s s' HG Hle ? ? ?. apply Hle. by apply HG.
  - intros ff s Hff Hs. by apply overloadInner_step.
Qed.

Hypothesis P_functions : Forall P (set_iter (functions st)).

Lemma overloadOuter_step f used :
  P f → symmetric used →
  ∃ used' w,
    overloadOuter fn st f used = Some (used', w) ∧
    symmetric used' ∧ used ⊆ used' ∧
    (countOverloadReports fn a b w + marked a b used)%nat = marked a b used' ∧
    ∀ ff, ff ∈ set_iter (functions st) → overloads fn st f ff → (f, ff) ∈ used'.
Proof.
  intros Hf Hsym. unfold overloadOuter, overloads, comparable.
  destruct (isPublic (fn f)) eqn:Hpub; simpl;
    [|exists used, []; repeat split; try done; by intros ? _ [[? _] _]].
  case_bool_decide as Hov;
    [exists used, []; repeat split; try done; by intros ? _ [[_ ?] _]|].
  destruct (overloadInner_loop f _ used Hf P_functions Hsym)
    as (used' & w & Hrun & Hsym' & Hle & Hcnt & HG).
  exists used', w. repeat split; try done.
  intros ff Hff (_ & Hcmp & Hne & Hname). by apply HG.
Qed.

Lemma overloadOuter_loop l used :
  Forall P l → symmetric used →
  ∃ used' w,
    forEach l (overloadOuter fn st) used = Some (used', w) ∧
    symmetric used' ∧ used ⊆ used' ∧
    (countOverloadReports fn a b w + marked a b used)%nat = marked a b used' ∧
    ∀ f, f ∈ l → ∀ ff, ff ∈ set_iter (functions st) →
                       overloads fn st f ff → (f, ff) ∈ used'.
Proof.
  apply (forEach_invariant (overloadOuter fn st) symmetric (⊆) (marked a b)
           (countOverloadReports fn a b)
           (λ f used', ∀ ff, ff ∈ set_iter (functions st) →
                             overloads fn st f ff → (f, ff) ∈ used') P).
  - done.
  - intros s1 s2 s3 H12 H23. by transitivity s2.
  - done.
  - apply countOverloadReports_app.
  - intros f s s' HG Hle ff ? ?. apply Hle. by apply HG.
  - intros f s Hf Hs. by apply overloadOuter_step.
Qed.

(** The second part reports two overloads exactly once, in one order or
    the other. *)
Lemma checkOverload_reports_once :
  a ∈ functions st → b ∈ functions st → overloads fn st a b →
  ∃ w, checkOverload fn st = Some (tt, w) ∧ countOverloadReports fn a b w = 1%nat.
Proof.
  intros Ha Hb Hab. unfold checkOverload.
  destruct (overloadOuter_loop (set_iter (functions st)) ∅ P_functions)
    as (used' & w & Hrun & _ & _ & Hcnt & HG).
  { intros x y Hxy. by apply elem_of_empty in Hxy. }
  exists (w ++ []). rewrite Hrun. split; [done|].
  rewrite app_nil_r, <- (Nat.add_0_r (countOverloadReports _ _ _ _)).
  change 0%nat with (marked a b ∅) at 1. rewrite Hcnt.
  unfold marked. rewrite decide_True; [done|].
  apply (HG a); [by apply elem_of_set_iter|by apply elem_of_set_iter|done].
Qed.

End Overloads.

(** The sets of the state when the walk ends are the functions the walk
    collects and the functions it marks. *)
Lemma hierarchy_functions cd x :
  x ∈ functions (walk_state fn (hierarchyFunctions contract cd) initialState)
  ↔ x ∈ collected fn contract cd.
Proof.
  rewrite walk_state_functions. unfold collected. rewrite list_elem_of_filter.
  simpl. rewrite elem_of_empty. split.
  - by intros [[]|[? ?]].
  - intros [? ?]. by right.
Qed.

Lemma hierarchy_overridedFunctions cd x :
  x ∈ overridedFunctions (walk_state fn (hierarchyFunctions contract cd) initialState)
  ↔ overridden fn contract cd x.
Proof.
  rewrite walk_state_overridedFunctions. unfold overridden, collected.
  simpl. rewrite elem_of_empty. split.
  - intros [[]|(g & ? & ? & ? & ?)]. exists g. by rewrite list_elem_of_filter.
  - intros (g & [? ?]%list_elem_of_filter & ? & ?). right. by exists g.
Qed.

(** C4 (as the code has it). After the walk, two distinct public
    functions of the hierarchy that are not constructor, receive,
    fallback or onTickTock functions, have the same name, and are not
    marked as overriding or overridden, are reported as overloads exactly
    once, in one order or the other, whatever the order of their
    declarations and of their addresses; the functions of the hierarchy
    are taken to have locations of their own. *)
Theorem C4_overloads_reported_once cd a b :
  (∀ x y, x ∈ hierarchyFunctions contract cd → y ∈ hierarchyFunctions contract cd →
          fn_location (fn x) = fn_location (fn y) → x = y) →
  a ∈ collected fn contract cd → b ∈ collected fn contract cd → a ≠ b →
  isPublic (fn a) = true → isPublic (fn b) = true →
  name (fn a) = name (fn b) →
  ¬ overridden fn contract cd a → ¬ overridden fn contract cd b →
  ∃ errs, checkOverrideAndOverload fn contract getAllBaseFunctions cd = Some (tt, errs)
          ∧ countOverloadReports fn a b errs = 1%nat.
Proof.
  intros Hinj Ha Hb Hne Hpa Hpb Hname Hoa Hob.
  set (st := walk_state fn (hierarchyFunctions contract cd) initialState).
  assert (∀ x, x ∈ collected fn contract cd → x ∈ hierarchyFunctions contract cd)
    as Hsub.
  { intros x. unfold collected. rewrite list_elem_of_filter. by intros [_ ?]. }
  destruct (checkOverload_reports_once
              (λ x, x ∈ hierarchyFunctions contract cd) Hinj st a b)
    as (w2 & Hw2 & Hcnt).
  - by apply Hsub.
  - by apply Hsub.
  - apply Forall_forall. intros x Hx%elem_of_set_iter.
    by apply Hsub, hierarchy_functions.
  - by apply hierarchy_functions.
  - by apply hierarchy_functions.
  - unfold st. repeat split; try done; by rewrite hierarchy_overridedFunctions.
  - destruct (checkOverrideAndOverload_run cd) as (w2' & Hw2' & Hrun).
    fold st in Hw2'. rewrite Hw2 in Hw2'. injection Hw2' as <-.
    exists (walk_errors fn getAllBaseFunctions (hierarchyFunctions contract cd)
              initialState ++ w2).
    split; [done|].
    by rewrite countOverloadReports_app, walk_errors_not_overload, Hcnt.
Qed.

Lemma elem_of_if_singleton {A} (c : bool) (e e' : A) :
  e ∈ (if c then [e'] else []) ↔ c = true ∧ e = e'.
Proof.
  destruct c.
  - rewrite list_elem_of_singleton. naive_solver.
  - rewrite elem_of_nil. naive_solver.
Qed.

Lemma elem_of_if_not_singleton {A} (c : bool) (e e' : A) :
  e ∈ (if c then [] else [e']) ↔ c = false ∧ e = e'.
Proof.
  destruct c.
  - rewrite elem_of_nil. naive_solver.
  - rewrite list_elem_of_singleton. naive_solver.
Qed.

(** *** Further properties: an override against one of its base functions *)

(** X15. An override passes the checks against a base function exactly when
    both have the same function ID, or both none, and agree on
    [responsible], [internalMsg] and [externalMsg]. *)
Theorem override_accepted_iff f base :
  checkBase fn f base = Some (tt, [])
  ↔ functionID (fn f) = functionID (fn base)
    ∧ isResponsible (fn f) = isResponsible (fn base)
    ∧ internalMsg (fn f) = internalMsg (fn base)
    ∧ externalMsg (fn f) = externalMsg (fn base).
Proof.
  rewrite checkBase_run. unfold checkBase_errors, functionIDErrors, onlyOneHasID.
  destruct (functionID (fn f)) as [i|], (functionID (fn base)) as [j|];
    destruct (isResponsible (fn f)), (isResponsible (fn base));
    destruct (internalMsg (fn f)), (internalMsg (fn base));
    destruct (externalMsg (fn f)), (externalMsg (fn base)); simpl;
    try (destruct (decide (i = j)) as [->|Hne];
         [rewrite bool_decide_true by done|rewrite bool_decide_false by done]);
    simpl; split; try done; try (by intros (?&?&?&?)); try (by intros [= ]);
    intros ([= ?]&_); done.
Qed.

(** X16. The error of [responsible] is reported exactly when the override and
    the base differ in it, and once. *)
Theorem responsible_rule f base :
  ∃ w, checkBase fn f base = Some (tt, w) ∧
       (responsibleError fn f base ∈ w
        ↔ isResponsible (fn f) ≠ isResponsible (fn base)) ∧
       (length (filter (λ e, e = responsibleError fn f base) w) ≤ 1)%nat.
Proof.
  eexists. split; [apply checkBase_run|].
  unfold checkBase_errors, functionIDErrors. split.
  - rewrite !elem_of_app. split.
    + intros [He|[He|[He|He]]]; repeat case_match;
        try (by apply elem_of_nil in He);
        try (apply list_elem_of_singleton in He; discriminate He).
      intros Heq. by rewrite Heq, bool_decide_true in *.
    + intros Hne. right; left. rewrite bool_decide_false by done.
      apply list_elem_of_here.
  - rewrite !filter_app, !length_app.
    repeat case_match; rewrite ?filter_nil, ?filter_cons;
      repeat first [rewrite decide_True by reflexivity
                   |rewrite decide_False by discriminate];
      rewrite ?filter_nil; simpl; lia.
Qed.

(** X17. When both have a function ID and the IDs differ, the override is
    reported once, with the ID of the base in the message, and the error of
    the presence is not reported. *)
Theorem functionID_value_mismatch f base i j :
  functionID (fn f) = Some i → functionID (fn base) = Some j → i ≠ j →
  ∃ w, checkBase fn f base = Some (tt, w) ∧
       length (filter (λ e, e = valueError fn f base j) w) = 1%nat ∧
       (presenceError fn f base ∉ w) ∧
       message (valueError fn f base j)
       = "Override function should have functionID = " +:+ toString_N j +:+ ".".
Proof.
  intros Hi Hj Hne. eexists. split; [apply checkBase_run|].
  destruct (checkBase_value_once f base i j Hi Hj Hne) as (H1 & H2 & _).
  done.
Qed.

(** X18. When exactly one of the override and the base has a function ID, the
    error of the presence is reported twice, by lines 79 and 101, and the
    error of the value is not reported. *)
Theorem functionID_presence_mismatch f base :
  (functionID (fn f) = None ↔ is_Some (functionID (fn base))) →
  ∃ w, checkBase fn f base = Some (tt, w) ∧
       length (filter (λ e, e = presenceError fn f base) w) = 2%nat ∧
       ∀ id, valueError fn f base id ∉ w.
Proof.
  intros Hone.
  assert (onlyOneHasID fn f base = true) as Honly.
  { unfold onlyOneHasID.
    destruct (functionID (fn f)) as [i|], (functionID (fn base)) as [j|]; simpl;
      try done.
    - destruct Hone as [_ Hone]. by discriminate Hone.
    - destruct Hone as [Hone _]. by destruct Hone. }
  eexists. split; [apply checkBase_run|]. split; [by apply checkBase_presence_twice|].
  intros id. unfold checkBase_errors, functionIDErrors. rewrite Honly.
  rewrite !elem_of_app. intros [He|[He|[He|He]]]; repeat case_match;
    try (by apply elem_of_nil in He);
    apply list_elem_of_singleton in He; discriminate He.
Qed.

(** *** Further properties: the registry of function IDs *)

(** After any part of the walk, an ID is registered to the first function
    of that part that has it, unless it was registered before. *)
Lemma walk_state_registry_first l st id :
  funcId2Decl (walk_state fn l st) !! id
  = match funcId2Decl st !! id with
    | Some g => Some g
    | None => head (filter (λ f, functionID (fn f) = Some id) l)
    end.
Proof.
  revert st. induction l as [|f l IH]; intros st.
  - simpl. by destruct (funcId2Decl st !! id).
  - simpl. rewrite IH. clear IH.
    destruct (funcId2Decl st !! id) as [g|] eqn:Hg.
    + by rewrite (visitFunction_state_registry f st id g Hg).
    + destruct (decide (functionID (fn f) = Some id)) as [Hid|Hid].
      * rewrite (visitFunction_state_register f st id Hid Hg).
        by rewrite filter_cons_True.
      * rewrite filter_cons_False by done.
        assert (funcId2Decl (visitFunction_state fn f st) !! id = None) as ->; [|done].
        unfold visitFunction_state.
        assert (funcId2Decl (registerFunctionID_state fn f st) !! id = None) as Hreg.
        { unfold registerFunctionID_state.
          destruct (functionID (fn f)) as [i|]; [|done].
          destruct (funcId2Decl st !! i); [done|]. simpl.
          rewrite lookup_insert_ne; [done|]. congruence. }
        by destruct (isExempt fn f).
Qed.

(** X19. When the walk ends, every ID is registered to the first function in
    the order of the walk, from the most basic contract on, that has it;
    special functions register their IDs as the others do. *)
Theorem registry_first_declaration cd :
  ∃ st w,
    hierarchyWalk fn contract getAllBaseFunctions cd = Some (st, w) ∧
    ∀ id, funcId2Decl st !! id
          = head (filter (λ f, functionID (fn f) = Some id)
                    (hierarchyFunctions contract cd)).
Proof.
  eexists _, _. split; [apply hierarchyWalk_run|].
  intros id. by rewrite walk_state_registry_first.
Qed.

(** Every error of the walk is an error of the step of one function. *)
Lemma walk_errors_elem_of l st e :
  e ∈ walk_errors fn getAllBaseFunctions l st
  ↔ ∃ pre f post, l = pre ++ f :: post
                  ∧ e ∈ visitFunction_errors fn getAllBaseFunctions f
                          (walk_state fn pre st).
Proof.
  revert st. induction l as [|f l IH]; intros st; simpl.
  - rewrite elem_of_nil. split; [done|].
    intros (pre & f & post & Hl & _). by destruct pre.
  - rewrite elem_of_app, IH. split.
    + intros [He|(pre & g & post & -> & He)].
      * by exists [], f, l.
      * by exists (f :: pre), g, post.
    + intros (pre & g & post & Hl & He). destruct pre as [|f' pre].
      * injection Hl as -> ->. by left.
      * injection Hl as -> ->. right. by exists pre, g, post.
Qed.

Lemma bind_Some_inv {A B} (m : TC A) (k : A → TC B) b w0 :
  m ≫= k = Some (b, w0) →
  ∃ a w w', m = Some (a, w) ∧ k a = Some (b, w') ∧ w0 = w ++ w'.
Proof.
  unfold mbind, TC_bind. destruct m as [[a w]|]; [|done].
  destruct (k a) as [[b' w']|] eqn:Hk; [|done].
  intros [= <- <-]. by exists a, w, w'.
Qed.

(** The errors of a loop are errors of its steps. *)
Lemma forEach_errors {A S} (body : A → S → TC S) (Q : A → Error → Prop) l :
  (∀ x s s' w, x ∈ l → body x s = Some (s', w) → Forall (Q x) w) →
  ∀ s s' w, forEach l body s = Some (s', w) →
            Forall (λ e, ∃ x, x ∈ l ∧ Q x e) w.
Proof.
  induction l as [|x l IH]; intros Hbody s s' w Hrun.
  - injection Hrun as _ <-. constructor.
  - cbn [forEach] in Hrun.
    apply bind_Some_inv in Hrun as (s1 & w1 & w2 & Hx & Hl & ->).
    apply Forall_app. split.
    + eapply Forall_impl; [by eapply Hbody; [apply list_elem_of_here|]|].
      intros e He. exists x. split; [apply list_elem_of_here|done].
    + eapply Forall_impl.
      * eapply IH; [|done]. intros y t t' u Hy. apply Hbody. by apply list_elem_of_further.
      * intros e (y & Hy & He). exists y. split; [by apply list_elem_of_further|done].
Qed.

(** The second part reports nothing but overloads: two distinct functions
    of [functions] that are public, not marked and have the same name. *)
Lemma checkOverload_sound st w :
  checkOverload fn st = Some (tt, w) →
  Forall (λ e, ∃ f ff, f ∈ functions st ∧ ff ∈ functions st
                       ∧ overloads fn st f ff ∧ e = overloadError fn f ff) w.
Proof.
  unfold checkOverload. intros Hrun.
  apply bind_Some_inv in Hrun as (used & w1 & w2 & Hrun & [= <-] & ->).
  rewrite app_nil_r.
  eapply Forall_impl.
  - apply (forEach_errors (overloadOuter fn st)
             (λ f e, ∃ ff, ff ∈ functions st ∧ overloads fn st f ff
                           ∧ e = overloadError fn f ff) _) in Hrun; [exact Hrun|].
    intros f s s' w Hf. unfold overloadOuter.
    destruct (isPublic (fn f)) eqn:Hpub; simpl; [|intros [= _ <-]; constructor].
    case_bool_decide as Hov; [intros [= _ <-]; constructor|].
    intros Hinner.
    apply (forEach_errors (overloadInner fn st f)
             (λ ff e, overloads fn st f ff ∧ e = overloadError fn f ff) _) in Hinner.
    + eapply Forall_impl; [exact Hinner|].
      intros e (ff & Hff%elem_of_set_iter & ? & ?). by exists ff.
    + intros ff t t' u Hff. unfold overloadInner.
      destruct (isPublic (fn ff)) eqn:Hpub'; simpl; [|intros [= _ <-]; constructor].
      case_bool_decide as Hov'; simpl; [intros [= _ <-]; constructor|].
      case_bool_decide as Heq; simpl; [intros [= _ <-]; constructor|].
      case_bool_decide as Hname; [|intros [= _ <-]; constructor].
      case_bool_decide as Hused; simpl; [|intros [= _ <-]; constructor].
      intros [= _ <-]. constructor; [|constructor].
      split; [|done]. by repeat split.
  - intros e (f & Hf%elem_of_set_iter & ff & Hff & Hov & ->). by exists f, ff.
Qed.

Lemma checkBase_errors_not_sameFunctionID a b f base e :
  e ∈ checkBase_errors fn f base → message e ≠ message (sameFunctionIDError fn a b).
Proof.
  unfold checkBase_errors, functionIDErrors. rewrite !elem_of_app.
  intros [He|[He|[He|He]]] Hmsg; repeat case_match;
    try (by apply elem_of_nil in He);
    apply list_elem_of_singleton in He; subst e; discriminate Hmsg.
Qed.

Lemma registerFunctionID_errors_elem_of f st e :
  e ∈ registerFunctionID_errors fn getAllBaseFunctions f st
  ↔ ∃ id f2, functionID (fn f) = Some id ∧ funcId2Decl st !! id = Some f2
             ∧ (f2 ∉ getAllBaseFunctions f) ∧ (f ∉ getAllBaseFunctions f2)
             ∧ e = sameFunctionIDError fn f f2.
Proof.
  unfold registerFunctionID_errors. split.
  - destruct (functionID (fn f)) as [id|] eqn:Hid; [|by intros ?%elem_of_nil].
    destruct (funcId2Decl st !! id) as [f2|] eqn:Hreg; [|by intros ?%elem_of_nil].
    rewrite elem_of_if_singleton, andb_true_iff, !bool_decide_eq_true.
    intros [[? ?] ->]. exists id, f2. repeat split; done.
  - intros (id & f2 & -> & -> & ? & ? & ->).
    rewrite !bool_decide_true by done. apply list_elem_of_here.
Qed.

(** X20. The error of a shared function ID is reported exactly when the walk
    reaches a function whose ID is already that of an earlier function,
    the first one that has it, and neither is among the base functions of
    the other. *)
Theorem sameFunctionID_reported_iff cd :
  ∃ errs,
    checkOverrideAndOverload fn contract getAllBaseFunctions cd = Some (tt, errs) ∧
    ((∃ e, e ∈ errs ∧ message e = "Two functions have the same functionID.")
     ↔ ∃ pre f post id g,
         hierarchyFunctions contract cd = pre ++ f :: post
         ∧ functionID (fn f) = Some id
         ∧ head (filter (λ x, functionID (fn x) = Some id) pre) = Some g
         ∧ (g ∉ getAllBaseFunctions f) ∧ (f ∉ getAllBaseFunctions g)).
Proof.
  destruct (checkOverrideAndOverload_run cd) as (w2 & Hw2 & Hrun).
  eexists. split; [exact Hrun|]. split.
  - intros (e & [He|He]%elem_of_app & Hmsg).
    + apply walk_errors_elem_of in He as (pre & f & post & Hsplit & He).
      unfold visitFunction_errors in He. apply elem_of_app in He as [He|He].
      * apply registerFunctionID_errors_elem_of in He
          as (id & f2 & Hid & Hreg & ? & ? & _).
        rewrite walk_state_registry_first in Hreg. simpl in Hreg.
        rewrite lookup_empty in Hreg. by exists pre, f, post, id, f2.
      * destruct (isExempt fn f); [by apply elem_of_nil in He|].
        apply list_elem_of_join in He as (w & He & (base & -> & _)%list_elem_of_fmap).
        by apply (checkBase_errors_not_sameFunctionID f f) in He.
    + apply checkOverload_sound in Hw2.
      rewrite Forall_forall in Hw2. apply Hw2 in He as (f & ff & _ & _ & _ & ->).
      discriminate Hmsg.
  - intros (pre & f & post & id & g & Hsplit & Hid & Hfirst & ? & ?).
    exists (sameFunctionIDError fn f g). split; [|done].
    apply elem_of_app. left. apply walk_errors_elem_of. exists pre, f, post.
    split; [done|]. unfold visitFunction_errors. apply elem_of_app. left.
    apply registerFunctionID_errors_elem_of. exists id, g.
    repeat split; try done.
    rewrite walk_state_registry_first. simpl. by rewrite lookup_empty.
Qed.

(** X21. When the explicit function IDs of the hierarchy are pairwise distinct,
    no error of a shared function ID is reported. *)
Theorem distinct_functionIDs_never_reported cd :
  NoDup (omap (λ f, functionID (fn f)) (hierarchyFunctions contract cd)) →
  ∃ errs,
    checkOverrideAndOverload fn contract getAllBaseFunctions cd = Some (tt, errs) ∧
    ∀ e, e ∈ errs → message e ≠ "Two functions have the same functionID.".
Proof.
  intros Hnodup.
  destruct (sameFunctionID_reported_iff cd) as (errs & Hrun & Hiff).
  exists errs. split; [done|]. intros e He Hmsg.
  destruct Hiff as [Hiff _].
  destruct Hiff as (pre & f & post & id & g & Hsplit & Hid & Hfirst & _);
    [by exists e|].
  apply head_Some_elem_of, list_elem_of_filter in Hfirst as [Hg Hpre].
  rewrite Hsplit, omap_app in Hnodup.
  apply NoDup_app in Hnodup as (_ & Hdisj & _).
  apply (Hdisj id).
  - apply list_elem_of_omap. by exists g.
  - apply list_elem_of_omap. exists f. split; [apply list_elem_of_here|done].
Qed.

(** *** Further properties: the overloads *)

(** X22. Every report of an overload is about two distinct public functions of
    the hierarchy with the same name that are neither special functions
    nor marked as overriding or overridden: private functions,
    constructors, overrides and functions of different names are never
    reported as overloads. *)
Theorem overload_reports_sound cd :
  ∃ errs,
    checkOverrideAndOverload fn contract getAllBaseFunctions cd = Some (tt, errs) ∧
    ∀ e, e ∈ errs →
         message e = "Function overloading is not supported for public functions." →
         ∃ f ff, f ∈ collected fn contract cd ∧ ff ∈ collected fn contract cd
                 ∧ f ≠ ff
                 ∧ isPublic (fn f) = true ∧ isPublic (fn ff) = true
                 ∧ name (fn f) = name (fn ff)
                 ∧ ¬ overridden fn contract cd f ∧ ¬ overridden fn contract cd ff
                 ∧ e = overloadError fn f ff.
Proof.
  destruct (checkOverrideAndOverload_run cd) as (w2 & Hw2 & Hrun).
  eexists. split; [exact Hrun|]. intros e [He|He]%elem_of_app Hmsg.
  - apply walk_errors_elem_of in He as (pre & f & post & _ & He).
    by apply (visitFunction_errors_not_overload f f) in He.
  - apply checkOverload_sound in Hw2. rewrite Forall_forall in Hw2.
    apply Hw2 in He as (f & ff & Hf & Hff & ([? Hof] & [? Hoff] & ? & ?) & ->).
    exists f, ff. rewrite <- !hierarchy_functions, <- !hierarchy_overridedFunctions.
    by repeat split.
Qed.

(** X23. When the walk ends, [functions] holds the functions of the hierarchy
    that are not constructor, receive, fallback or onTickTock functions,
    and [overridedFunctions] holds those of them that have base functions,
    together with their base functions. *)
Theorem walk_sets cd :
  ∃ st w,
    hierarchyWalk fn contract getAllBaseFunctions cd = Some (st, w) ∧
    (∀ x, x ∈ functions st
          ↔ x ∈ hierarchyFunctions contract cd ∧ isExempt fn x = false) ∧
    (∀ x, x ∈ overridedFunctions st
          ↔ ∃ g, g ∈ hierarchyFunctions contract cd ∧ isExempt fn g = false
                 ∧ baseFunctions (fn g) ≠ []
                 ∧ (x = g ∨ x ∈ baseFunctions (fn g))).
Proof.
  eexists _, _. split; [apply hierarchyWalk_run|]. split.
  - intros x. rewrite walk_state_functions. simpl. rewrite elem_of_empty.
    split; [by intros [[]|?]|by right].
  - intros x. rewrite walk_state_overridedFunctions. simpl. rewrite elem_of_empty.
    split; [by intros [[]|?]|by right].
Qed.

(** X24. A hierarchy passes the whole check when the functions that share a
    function ID are base functions of one another, every override agrees
    with each of its base functions on the function ID, [responsible],
    [internalMsg] and [externalMsg], and the public functions that are
    compared have names of their own. *)
Theorem hierarchy_accepted cd :
  (∀ pre f post id g,
     hierarchyFunctions contract cd = pre ++ f :: post →
     functionID (fn f) = Some id → g ∈ pre → functionID (fn g) = Some id →
     g ∈ getAllBaseFunctions f ∨ f ∈ getAllBaseFunctions g) →
  (∀ f base,
     f ∈ collected fn contract cd → base ∈ baseFunctions (fn f) →
     functionID (fn f) = functionID (fn base)
     ∧ isResponsible (fn f) = isResponsible (fn base)
     ∧ internalMsg (fn f) = internalMsg (fn base)
     ∧ externalMsg (fn f) = externalMsg (fn base)) →
  (∀ f ff,
     f ∈ collected fn contract cd → ff ∈ collected fn contract cd → f ≠ ff →
     isPublic (fn f) = true → isPublic (fn ff) = true →
     ¬ overridden fn contract cd f → ¬ overridden fn contract cd ff →
     name (fn f) ≠ name (fn ff)) →
  checkOverrideAndOverload fn contract getAllBaseFunctions cd = Some (tt, []).
Proof.
  intros Hids Hbases Hnames.
  destruct (checkOverrideAndOverload_run cd) as (w2 & Hw2 & ->).
  f_equal. f_equal. apply elem_of_nil_inv. intros e [He|He]%elem_of_app.
  - apply walk_errors_elem_of in He as (pre & f & post & Hsplit & He).
    unfold visitFunction_errors in He. apply elem_of_app in He as [He|He].
    + apply registerFunctionID_errors_elem_of in He
        as (id & f2 & Hid & Hreg & Hn1 & Hn2 & _).
      rewrite walk_state_registry_first in Hreg. simpl in Hreg.
      rewrite lookup_empty in Hreg.
      apply head_Some_elem_of, list_elem_of_filter in Hreg as [Hid2 Hpre].
      destruct (Hids pre f post id f2 Hsplit Hid Hpre Hid2); done.
    + destruct (isExempt fn f) eqn:Hex; [by apply elem_of_nil in He|].
      apply list_elem_of_join in He as (w & He & (base & -> & Hbase)%list_elem_of_fmap).
      assert (f ∈ collected fn contract cd) as Hf.
      { unfold collected. apply list_elem_of_filter. split; [done|].
        rewrite Hsplit. apply elem_of_app. right. apply list_elem_of_here. }
      apply (Hbases f base Hf), override_accepted_iff in Hbase.
      rewrite checkBase_run in Hbase. injection Hbase as Hnil.
      rewrite Hnil in He. by apply elem_of_nil in He.
  - apply checkOverload_sound in Hw2. rewrite Forall_forall in Hw2.
    apply Hw2 in He as (f & ff & Hf & Hff & ([? Hof] & [? Hoff] & ? & ?) & _).
    apply (Hnames f ff); try done.
    + by apply hierarchy_functions.
    + by apply hierarchy_functions.
    + by rewrite <- hierarchy_overridedFunctions.
    + by rewrite <- hierarchy_overridedFunctions.
Qed.

(** X25. The check of a contract runs to its end for every hierarchy: the
    optional values and the map entries it reads are tested first.  The
    visit of the contract returns [true] with the errors of the check. *)
Theorem visit_ContractDefinition_total cd :
  ∃ errs,
    checkOverrideAndOverload fn contract getAllBaseFunctions cd = Some (tt, errs) ∧
    visit_ContractDefinition fn contract getAllBaseFunctions cd = Some (true, errs).
Proof.
  destruct (checkOverrideAndOverload_run cd) as (w2 & _ & Hrun).
  eexists. split; [exact Hrun|].
  unfold visit_ContractDefinition. rewrite Hrun. simpl. by rewrite app_nil_r.
Qed.

End OverrideAndOverloadProperties.

(** ** The properties on the example programs *)

Ltac solve_elem_of :=
  vm_compute; repeat first [apply list_elem_of_here | apply list_elem_of_further].

(** The pair of C1 on the example: [B.f] differs from [A.f] in both flags,
    and the whole check reports one error. *)
Lemma C1_counterexample :
  let gabf := getAllBaseFunctions_spec ex_msgFlags 8 in
  20%positive ∈ hierarchyFunctions ex_contracts 2%positive ∧
  isExempt ex_msgFlags 20%positive = false ∧
  10%positive ∈ baseFunctions (ex_msgFlags 20%positive) ∧
  internalMsg (ex_msgFlags 20%positive) ≠ internalMsg (ex_msgFlags 10%positive) ∧
  externalMsg (ex_msgFlags 20%positive) ≠ externalMsg (ex_msgFlags 10%positive) ∧
  checkOverrideAndOverload ex_msgFlags ex_contracts gabf 2%positive
  = Some (tt, [msgError ex_msgFlags 20%positive 10%positive]) ∧
  ¬ (∃ e1 e2, checkOverrideAndOverload ex_msgFlags ex_contracts gabf 2%positive
              = Some (tt, [e1; e2])).
Proof.
  cbv zeta. split; [solve_elem_of|]. split; [reflexivity|].
  split; [solve_elem_of|]. split; [discriminate|]. split; [discriminate|].
  split; [by vm_compute|]. intros (e1 & e2 & He). by vm_compute in He.
Qed.

Lemma C1_witness :
  let gabf := getAllBaseFunctions_spec ex_msgFlags 8 in
  20%positive ∈ hierarchyFunctions ex_contracts 2%positive ∧
  isExempt ex_msgFlags 20%positive = false ∧
  10%positive ∈ baseFunctions (ex_msgFlags 20%positive) ∧
  ∃ w errs,
    checkBase ex_msgFlags 20%positive 10%positive
    = Some (tt, w ++ [msgError ex_msgFlags 20%positive 10%positive]) ∧
    (∀ e, e ∈ w → message e ≠ message (msgError ex_msgFlags 20%positive 10%positive)) ∧
    checkOverrideAndOverload ex_msgFlags ex_contracts gabf 2%positive = Some (tt, errs) ∧
    (∀ e, e ∈ w ++ [msgError ex_msgFlags 20%positive 10%positive] → e ∈ errs).
Proof.
  cbv zeta.
  assert (20%positive ∈ hierarchyFunctions ex_contracts 2%positive) as H1
    by solve_elem_of.
  assert (10%positive ∈ baseFunctions (ex_msgFlags 20%positive)) as H2
    by solve_elem_of.
  split; [exact H1|]. split; [reflexivity|]. split; [exact H2|].
  exact (C1_msg_flags_one_combined_check ex_msgFlags ex_contracts
           (getAllBaseFunctions_spec ex_msgFlags 8) 2%positive 20%positive 10%positive
           H1 eq_refl H2).
Defined.

(** C2 on the example: only the base has a function ID, and the error of
    the presence is reported twice, by line 79 and again by line 101. *)
Theorem C2_presence_mismatch_reported_twice :
  onlyOneHasID ex_idPresence 20%positive 10%positive = true ∧
  checkOverrideAndOverload ex_idPresence ex_contracts
    (getAllBaseFunctions_spec ex_idPresence 8) 2%positive
  = Some (tt, [presenceError ex_idPresence 20%positive 10%positive;
               presenceError ex_idPresence 20%positive 10%positive]).
Proof. split; by vm_compute. Qed.

Lemma C3_witness :
  let gabf := getAllBaseFunctions_spec ex_sameID 8 in
  hierarchyFunctions ex_contracts 2%positive = [10%positive] ++ 20%positive :: [] ∧
  functionID (ex_sameID 20%positive) = Some 5%N ∧
  funcId2Decl (walk_state ex_sameID [10%positive] initialState) !! 5%N = Some 10%positive ∧
  10%positive ≠ 20%positive ∧
  (10%positive ∉ gabf 20%positive) ∧ (20%positive ∉ gabf 10%positive) ∧
  ∃ errs, checkOverrideAndOverload ex_sameID ex_contracts gabf 2%positive = Some (tt, errs)
          ∧ sameFunctionIDError ex_sameID 20%positive 10%positive ∈ errs.
Proof.
  cbv zeta.
  assert (funcId2Decl (walk_state ex_sameID [10%positive] initialState) !! 5%N
          = Some 10%positive) as Hreg by (by vm_compute).
  assert (10%positive ∉ getAllBaseFunctions_spec ex_sameID 8 20%positive) as Hb1
    by (by vm_compute).
  assert (20%positive ∉ getAllBaseFunctions_spec ex_sameID 8 10%positive) as Hb2
    by (by vm_compute).
  split; [reflexivity|]. split; [reflexivity|]. split; [exact Hreg|].
  split; [discriminate|]. split; [exact Hb1|]. split; [exact Hb2|].
  destruct (C3_functionID_registry ex_sameID ex_contracts
              (getAllBaseFunctions_spec ex_sameID 8) 2%positive
              [10%positive] 20%positive [] 5%N eq_refl eq_refl)
    as (st & w & Hpre & Hshared & _).
  assert (st = walk_state ex_sameID [10%positive] initialState) as ->.
  { rewrite (walk_run ex_sameID ex_contracts) in Hpre. by injection Hpre as <- _. }
  destruct (Hshared 10%positive Hreg ltac:(discriminate) Hb1 Hb2)
    as (errs & Hrun & Hin & _).
  by exists errs.
Defined.

(** The pair of C4 on the example: the constructors of [A] and [B] are two
    distinct public functions of the hierarchy with the same name, neither
    is marked, and no overload is reported. *)
Lemma C4_counterexample :
  let gabf := getAllBaseFunctions_spec ex_constructors 8 in
  10%positive ∈ hierarchyFunctions ex_contracts 2%positive ∧
  20%positive ∈ hierarchyFunctions ex_contracts 2%positive ∧
  10%positive ≠ 20%positive ∧
  isPublic (ex_constructors 10%positive) = true ∧
  isPublic (ex_constructors 20%positive) = true ∧
  name (ex_constructors 10%positive) = name (ex_constructors 20%positive) ∧
  overridedFunctions (walk_state ex_constructors
                        (hierarchyFunctions ex_contracts 2%positive) initialState) = ∅ ∧
  checkOverrideAndOverload ex_constructors ex_contracts gabf 2%positive = Some (tt, []) ∧
  countOverloadReports ex_constructors 10%positive 20%positive [] ≠ 1%nat.
Proof.
  cbv zeta. split; [solve_elem_of|]. split; [solve_elem_of|].
  split; [discriminate|]. split; [reflexivity|]. split; [reflexivity|].
  split; [reflexivity|]. split; [by vm_compute|]. split; [by vm_compute|].
  discriminate.
Qed.

Lemma C4_witness :
  let gabf := getAllBaseFunctions_spec ex_overloads 8 in
  (∀ x y, x ∈ hierarchyFunctions ex_contracts 2%positive →
          y ∈ hierarchyFunctions ex_contracts 2%positive →
          fn_location (ex_overloads x) = fn_location (ex_overloads y) → x = y) ∧
  10%positive ∈ collected ex_overloads ex_contracts 2%positive ∧
  20%positive ∈ collected ex_overloads ex_contracts 2%positive ∧
  10%positive ≠ 20%positive ∧
  isPublic (ex_overloads 10%positive) = true ∧
  isPublic (ex_overloads 20%positive) = true ∧
  name (ex_overloads 10%positive) = name (ex_overloads 20%positive) ∧
  ¬ overridden ex_overloads ex_contracts 2%positive 10%positive ∧
  ¬ overridden ex_overloads ex_contracts 2%positive 20%positive ∧
  ∃ errs, checkOverrideAndOverload ex_overloads ex_contracts gabf 2%positive
          = Some (tt, errs)
          ∧ countOverloadReports ex_overloads 10%positive 20%positive errs = 1%nat.
Proof.
  cbv zeta.
  assert (∀ x, x ∈ hierarchyFunctions ex_contracts 2%positive →
               x = 10%positive ∨ x = 20%positive) as Hfs.
  { intros x Hx. vm_compute in Hx.
    apply elem_of_cons in Hx as [->|Hx]; [by left|].
    apply elem_of_cons in Hx as [->|Hx]; [by right|].
    by apply elem_of_nil in Hx. }
  assert (∀ x y, x ∈ hierarchyFunctions ex_contracts 2%positive →
                 y ∈ hierarchyFunctions ex_contracts 2%positive →
                 fn_location (ex_overloads x) = fn_location (ex_overloads y) → x = y)
    as Hinj.
  { intros x y [->| ->]%Hfs [->| ->]%Hfs; vm_compute; congruence. }
  assert (∀ x, ¬ overridden ex_overloads ex_contracts 2%positive x) as Hov.
  { intros x (g & Hg & Hbases & _). unfold collected in Hg.
    apply list_elem_of_filter in Hg as [_ [->| ->]%Hfs]; by apply Hbases. }
  assert (10%positive ∈ collected ex_overloads ex_contracts 2%positive) as Ha
    by solve_elem_of.
  assert (20%positive ∈ collected ex_overloads ex_contracts 2%positive) as Hb
    by solve_elem_of.
  split; [exact Hinj|]. split; [exact Ha|]. split; [exact Hb|].
  split; [discriminate|]. split; [reflexivity|]. split; [reflexivity|].
  split; [reflexivity|]. split; [apply Hov|]. split; [apply Hov|].
  exact (C4_overloads_reported_once ex_overloads ex_contracts
           (getAllBaseFunctions_spec ex_overloads 8) 2%positive 10%positive 20%positive
           Hinj Ha Hb ltac:(discriminate) eq_refl eq_refl eq_refl
           (Hov 10%positive) (Hov 20%positive)).
Defined.

Lemma C5_witness :
  let exact_fit := ex_key 3 [ex_field 20 (T_Integer 255 false)] in
  let too_wide := ex_key 4 [ex_field 20 T_TvmCell] in
  INT_MIN ≤ 1023 ≤ INT_MAX ∧
  sumBits TypeInfo_spec (members exact_fit) = 1023 ∧
  1023 < sumBits TypeInfo_spec (members too_wide) ≤ INT_MAX ∧
  visit_Mapping TypeInfo_spec 1023 (ex_mapping exact_fit) = Some (true, []) ∧
  visit_Mapping TypeInfo_spec 1023 (ex_mapping too_wide)
  = Some (true, [badFieldError (ex_mapping too_wide) (ex_field 20 T_TvmCell);
                 structFitError 1023 (ex_mapping too_wide)]).
Proof.
  cbv zeta.
  assert (INT_MIN ≤ 1023 ≤ INT_MAX) as HC by (by vm_compute).
  split; [exact HC|]. split; [reflexivity|]. split; [by vm_compute|]. split.
  - exact (proj1 (C5_struct_key_width TypeInfo_spec 1023
                    (ex_mapping (ex_key 3 [ex_field 20 (T_Integer 255 false)]))
                    (ex_key 3 [ex_field 20 (T_Integer 255 false)])
                    HC eq_refl eq_refl) eq_refl).
  - exact (proj1 (proj2 (C5_struct_key_width TypeInfo_spec 1023
                           (ex_mapping (ex_key 4 [ex_field 20 T_TvmCell]))
                           (ex_key 4 [ex_field 20 T_TvmCell])
                           HC eq_refl eq_refl))
             ltac:(by vm_compute)).
Defined.

Lemma C6_witness :
  functionID ex_zeroID = Some 0%N ∧
  ∃ w, visit_FunctionDefinition ex_zeroID = Some (true, w)
       ∧ functionIDZeroError ex_zeroID ∈ w.
Proof.
  split; [reflexivity|]. exact (C6_functionID_zero_rejected ex_zeroID eq_refl).
Defined.

Lemma C7_witness :
  F_gosh "commit" ∈ [F_storageFee; F_gosh "commit"] ∧
  (notSupportedError (ex_loc 500) (F_gosh "commit")
   ∈ spec_gate ex_ton ex_gosh ex_ever (ex_loc 500) [F_storageFee; F_gosh "commit"]
   ↔ supported ex_ton ex_gosh (F_gosh "commit") ex_ever = false).
Proof.
  assert (F_gosh "commit" ∈ [F_storageFee; F_gosh "commit"]) as Hin
    by (apply list_elem_of_further, list_elem_of_here).
  split; [exact Hin|].
  exact (proj1 (proj2 (proj2 (proj2 (C7_version_gate ex_ton ex_gosh ex_ever))))
           (ex_loc 500) [F_storageFee; F_gosh "commit"] (F_gosh "commit") Hin).
Defined.

Lemma C8_witness :
  name ex_onCodeUpgrade = "onCodeUpgrade" ∧
  returnParameters ex_onCodeUpgrade ≠ [] ∧
  isPublic ex_onCodeUpgrade = true ∧
  check_onCodeUpgrade ex_onCodeUpgrade
  = Some (tt, onCodeUpgrade_returnErrors ex_onCodeUpgrade
              ++ onCodeUpgrade_visibilityErrors ex_onCodeUpgrade) ∧
  length (onCodeUpgrade_returnErrors ex_onCodeUpgrade
          ++ onCodeUpgrade_visibilityErrors ex_onCodeUpgrade) = 2%nat.
Proof.
  split; [reflexivity|]. split; [discriminate|]. split; [reflexivity|].
  pose proof (C8_onCodeUpgrade_independent_checks ex_onCodeUpgrade eq_refl)
    as (Hrun & _ & _ & _ & _ & _ & _ & Htwo).
  split; [exact Hrun|]. apply Htwo; [discriminate|reflexivity].
Defined.

Lemma C9_witness :
  isInline ex_inline = true ∧ isPublic ex_inline = true ∧
  ∃ w, visit_FunctionDefinition ex_inline = Some (true, w)
       ∧ inlineVisibilityError ex_inline ∈ w.
Proof.
  split; [reflexivity|]. split; [reflexivity|].
  exact (C9_inline_public_rejected ex_inline eq_refl eq_refl).
Defined.

Lemma C10_witness :
  category (expr_type (baseExpression ex_indexRange)) ≠ Array ∧
  to_ArrayType (expr_type (baseExpression ex_indexRange)) = None ∧
  visit_IndexRangeAccess ex_indexRange = Some (true, [indexRangeError ex_indexRange]).
Proof.
  split; [discriminate|].
  exact (proj2 (C10_visit_IndexRangeAccess_total ex_indexRange) ltac:(discriminate)).
Defined.

(** * Further properties of the checks *)

(** ** The check of a function definition *)

(** The visit runs to its end whatever the numbers of parameters and of
    return parameters are, and reports the errors of its checks in their
    order. *)
Lemma visit_FunctionDefinition_run f :
  visit_FunctionDefinition f
  = Some (true, concat (functionErrors f) ++ afterSignatureCheck_errors f).
Proof.
  unfold visit_FunctionDefinition.
  rewrite !when_typeError.
  assert (Hup : when (bool_decide (name f = "onCodeUpgrade")) (check_onCodeUpgrade f)
                = Some (tt, if bool_decide (name f = "onCodeUpgrade")
                            then onCodeUpgrade_returnErrors f ++ onCodeUpgrade_visibilityErrors f
                            else [])).
  { rewrite check_onCodeUpgrade_errors. by destruct (bool_decide _). }
  rewrite Hup. clear Hup.
  match goal with
  | |- context [if bool_decide (name f = "afterSignatureCheck") then ?m else ?m'] =>
      assert (Hsig : (if bool_decide (name f = "afterSignatureCheck") then m else m')
                     = Some (tt, afterSignatureCheck_errors f))
  end.
  { unfold afterSignatureCheck_errors, hasCanonicalParameters, hasCanonicalReturn.
    destruct (bool_decide (name f = "afterSignatureCheck")); [|done].
    destruct (parameters f) as [|p0 [|p1 [|p2 ps]]];
      destruct (returnParameters f) as [|r0 [|r1 rs]];
      destruct (isInline f); simpl;
      repeat (destruct (bool_decide _); simpl);
      reflexivity. }
  rewrite Hsig. clear Hsig.
  unfold functionErrors.
  destruct (functionID f) as [v|]; simpl.
  - rewrite when_typeError. simpl.
    replace (bool_decide (Some v = Some 0%N)) with (bool_decide (v = 0%N))
      by (apply bool_decide_ext; split; congruence).
    rewrite !app_nil_r, <- !app_assoc. reflexivity.
  - rewrite !app_nil_r, <- !app_assoc. reflexivity.
Qed.

Lemma afterSignatureCheck_errors_elem_of f e :
  e ∈ afterSignatureCheck_errors f
  ↔ name f = "afterSignatureCheck"
    ∧ ((hasCanonicalParameters f = false ∧ e = badParametersError f)
       ∨ (hasCanonicalReturn f = false ∧ e = badReturnError f)
       ∨ (visibility f ≠ Private ∧ e = notPrivateError f)
       ∨ (isInline f = false ∧ e = notInlineError f)).
Proof.
  unfold afterSignatureCheck_errors. case_bool_decide as Hname.
  - rewrite !elem_of_app, !elem_of_if_not_singleton.
    rewrite bool_decide_eq_false. naive_solver.
  - rewrite elem_of_nil. naive_solver.
Qed.

(** The errors of the visit of a function, one case for each check. *)
Lemma visit_FunctionDefinition_elem_of f e :
  e ∈ concat (functionErrors f) ++ afterSignatureCheck_errors f
  ↔ (functionID f = Some 0%N ∧ e = functionIDZeroError f)
    ∨ (is_Some (functionID f) ∧ isPublic f = false ∧ name f ≠ "onCodeUpgrade"
       ∧ e = functionIDPlacementError f)
    ∨ (is_Some (functionID f)
       ∧ (isReceive f || isFallback f || isOnTickTock f || isOnBounce f) = true
       ∧ e = functionIDRoleError f)
    ∨ (isInline f = true ∧ isPublic f = true ∧ e = inlineVisibilityError f)
    ∨ (name f = "onCodeUpgrade"
       ∧ e ∈ onCodeUpgrade_returnErrors f ++ onCodeUpgrade_visibilityErrors f)
    ∨ e ∈ afterSignatureCheck_errors f.
Proof.
  unfold functionErrors. simpl. rewrite app_nil_r.
  rewrite !elem_of_app, !elem_of_if_singleton.
  rewrite !andb_true_iff, !negb_true_iff, !bool_decide_eq_true, !bool_decide_eq_false.
  assert (e ∈ (if bool_decide (name f = "onCodeUpgrade")
               then onCodeUpgrade_returnErrors f ++ onCodeUpgrade_visibilityErrors f
               else [])
          ↔ name f = "onCodeUpgrade"
            ∧ e ∈ onCodeUpgrade_returnErrors f ++ onCodeUpgrade_visibilityErrors f) as ->.
  { case_bool_decide; [naive_solver|]. rewrite elem_of_nil. naive_solver. }
  rewrite !elem_of_app. tauto.
Qed.

Lemma onCodeUpgrade_errors_elem_of f e :
  e ∈ onCodeUpgrade_returnErrors f ++ onCodeUpgrade_visibilityErrors f →
  (∃ r, e = returnsError r) ∨ e = badVisibilityError f.
Proof.
  unfold onCodeUpgrade_returnErrors, onCodeUpgrade_visibilityErrors.
  rewrite elem_of_app, elem_of_if_singleton.
  intros [He|[_ ->]]; [|by right].
  destruct (returnParameters f) as [|r rs]; [by apply elem_of_nil in He|].
  apply list_elem_of_singleton in He. left. by exists r.
Qed.

(** An error that is none of those of [onCodeUpgrade] and of
    [afterSignatureCheck], by its message. *)
Ltac other_hook_error H :=
  first
    [ apply onCodeUpgrade_errors_elem_of in H as [[? H]|H]; discriminate H
    | apply afterSignatureCheck_errors_elem_of in H
        as [_ [[_ H]|[[_ H]|[[_ H]|[_ H]]]]]; discriminate H ].

(** X1. The error of the placement of a function ID is reported exactly for a
    function that has a function ID, is not public and is not named
    [onCodeUpgrade]: [onCodeUpgrade] may have a function ID whatever its
    visibility. *)
Theorem functionID_placement_rule (f : FunctionDefinition) :
  ∃ w, visit_FunctionDefinition f = Some (true, w) ∧
       (functionIDPlacementError f ∈ w
        ↔ is_Some (functionID f) ∧ isPublic f = false ∧ name f ≠ "onCodeUpgrade").
Proof.
  eexists. split; [apply visit_FunctionDefinition_run|].
  rewrite visit_FunctionDefinition_elem_of. split.
  - intros [[_ H]|[(?&?&?&_)|[(_&_&H)|[(_&_&H)|[[_ H]|H]]]]];
      try discriminate H; try done; other_hook_error H.
  - intros (?&?&?). right; left. done.
Qed.

(** X2. The error of a function ID on a receive, fallback, onTickTock or
    onBounce function is reported exactly for these functions when they
    have a function ID, whatever their visibility. *)
Theorem functionID_role_rule (f : FunctionDefinition) :
  ∃ w, visit_FunctionDefinition f = Some (true, w) ∧
       (functionIDRoleError f ∈ w
        ↔ is_Some (functionID f)
          ∧ (isReceive f = true ∨ isFallback f = true
             ∨ isOnTickTock f = true ∨ isOnBounce f = true)).
Proof.
  eexists. split; [apply visit_FunctionDefinition_run|].
  rewrite visit_FunctionDefinition_elem_of, !orb_true_iff. split.
  - intros [[_ H]|[(_&_&_&H)|[(?&?&_)|[(_&_&H)|[[_ H]|H]]]]];
      try discriminate H; try tauto; other_hook_error H.
  - intros (?&?). right; right; left. tauto.
Qed.

(** X3. The error of the function ID zero is reported only for the function ID
    zero, and the error of an inline function only for a function that is
    inline and public. *)
Theorem functionID_zero_and_inline_only (f : FunctionDefinition) :
  ∃ w, visit_FunctionDefinition f = Some (true, w) ∧
       (functionIDZeroError f ∈ w ↔ functionID f = Some 0%N) ∧
       (inlineVisibilityError f ∈ w ↔ isInline f = true ∧ isPublic f = true).
Proof.
  eexists. split; [apply visit_FunctionDefinition_run|].
  rewrite !visit_FunctionDefinition_elem_of. split; split.
  - intros [[? _]|[(_&_&_&H)|[(_&_&H)|[(_&_&H)|[[_ H]|H]]]]];
      try discriminate H; try done; other_hook_error H.
  - intros ?. by left.
  - intros [[_ H]|[(_&_&_&H)|[(_&_&H)|[(?&?&_)|[[_ H]|H]]]]];
      try discriminate H; try done; other_hook_error H.
  - intros [? ?]. do 3 right. by left.
Qed.

(** X4. A function without a function ID that is not both inline and public
    and is named neither [onCodeUpgrade] nor [afterSignatureCheck] gets no
    error, whatever its parameters are. *)
Theorem plain_function_accepted (f : FunctionDefinition) :
  functionID f = None →
  isInline f && isPublic f = false →
  name f ≠ "onCodeUpgrade" → name f ≠ "afterSignatureCheck" →
  visit_FunctionDefinition f = Some (true, []).
Proof.
  intros Hid Hinl Hup Hsig. rewrite visit_FunctionDefinition_run.
  unfold functionErrors, afterSignatureCheck_errors.
  rewrite Hid, Hinl. rewrite !(bool_decide_false (name f = _)) by done.
  rewrite (bool_decide_false (None = Some _)) by done.
  rewrite (bool_decide_false (is_Some None)) by (by intros [? ?]).
  reflexivity.
Qed.

Lemma hasCanonicalParameters_true f :
  hasCanonicalParameters f = true
  ↔ ∃ p0 p1, parameters f = [p0; p1]
             ∧ category (var_type p0) = TvmSlice ∧ category (var_type p1) = TvmCell.
Proof.
  unfold hasCanonicalParameters. split.
  - destruct (parameters f) as [|p0 [|p1 [|p2 ps]]]; try done.
    rewrite andb_true_iff, !bool_decide_eq_true. intros [? ?]. by exists p0, p1.
  - intros (p0 & p1 & -> & H0 & H1).
    by rewrite andb_true_iff, !bool_decide_eq_true.
Qed.

Lemma hasCanonicalReturn_true f :
  hasCanonicalReturn f = true
  ↔ ∃ r, returnParameters f = [r] ∧ category (var_type r) = TvmSlice.
Proof.
  unfold hasCanonicalReturn. split.
  - destruct (returnParameters f) as [|r [|r1 rs]]; try done.
    rewrite bool_decide_eq_true. intros ?. by exists r.
  - intros (r & -> & Hr). by rewrite bool_decide_eq_true.
Qed.

(** X5. For a function named [afterSignatureCheck], each of the four
    requirements has an error of its own, reported exactly when the
    requirement fails: the parameters (a [TvmSlice] and a [TvmCell]), the
    return parameters (one [TvmSlice]), the visibility (private) and the
    inline mark. *)
Theorem afterSignatureCheck_each_deviation (f : FunctionDefinition) :
  name f = "afterSignatureCheck" →
  ∃ w, visit_FunctionDefinition f = Some (true, w) ∧
       (badParametersError f ∈ w
        ↔ ¬ ∃ p0 p1, parameters f = [p0; p1]
                     ∧ category (var_type p0) = TvmSlice
                     ∧ category (var_type p1) = TvmCell) ∧
       (badReturnError f ∈ w
        ↔ ¬ ∃ r, returnParameters f = [r] ∧ category (var_type r) = TvmSlice) ∧
       (notPrivateError f ∈ w ↔ visibility f ≠ Private) ∧
       (notInlineError f ∈ w ↔ isInline f = false).
Proof.
  intros Hname. eexists. split; [apply visit_FunctionDefinition_run|].
  rewrite <- hasCanonicalParameters_true, <- hasCanonicalReturn_true.
  rewrite !not_true_iff_false.
  rewrite !visit_FunctionDefinition_elem_of, !afterSignatureCheck_errors_elem_of.
  repeat split.
  - intros [[_ H]|[(_&_&_&H)|[(_&_&H)|[(_&_&H)|[[_ H]|H]]]]];
      try discriminate H.
    + apply onCodeUpgrade_errors_elem_of in H as [[? H]|H]; discriminate H.
    + destruct H as [_ [[? _]|[[_ H]|[[_ H]|[_ H]]]]]; try discriminate H; done.
  - intros ?. do 5 right. split; [done|]. by left.
  - intros [[_ H]|[(_&_&_&H)|[(_&_&H)|[(_&_&H)|[[_ H]|H]]]]];
      try discriminate H.
    + apply onCodeUpgrade_errors_elem_of in H as [[? H]|H]; discriminate H.
    + destruct H as [_ [[_ H]|[[? _]|[[_ H]|[_ H]]]]]; try discriminate H; done.
  - intros ?. do 5 right. split; [done|]. right; by left.
  - intros [[_ H]|[(_&_&_&H)|[(_&_&H)|[(_&_&H)|[[_ H]|H]]]]];
      try discriminate H.
    + apply onCodeUpgrade_errors_elem_of in H as [[? H]|H]; discriminate H.
    + destruct H as [_ [[_ H]|[[_ H]|[[? _]|[_ H]]]]]; try discriminate H; done.
  - intros ?. do 5 right. split; [done|]. right; right; by left.
  - intros [[_ H]|[(_&_&_&H)|[(_&_&H)|[(_&_&H)|[[_ H]|H]]]]];
      try discriminate H.
    + apply onCodeUpgrade_errors_elem_of in H as [[? H]|H]; discriminate H.
    + destruct H as [_ [[_ H]|[[_ H]|[[_ H]|[? _]]]]]; try discriminate H; done.
  - intros ?. do 5 right. split; [done|]. right; right; by right.
Qed.

(** X6. A function named [afterSignatureCheck] without a function ID that is
    not public gets no error exactly when it has the expected signature. *)
Theorem afterSignatureCheck_accepted_iff (f : FunctionDefinition) :
  name f = "afterSignatureCheck" → functionID f = None → isPublic f = false →
  visit_FunctionDefinition f = Some (true, [])
  ↔ (∃ p0 p1, parameters f = [p0; p1]
              ∧ category (var_type p0) = TvmSlice ∧ category (var_type p1) = TvmCell)
    ∧ (∃ r, returnParameters f = [r] ∧ category (var_type r) = TvmSlice)
    ∧ visibility f = Private ∧ isInline f = true.
Proof.
  intros Hname Hid Hpub.
  rewrite <- hasCanonicalParameters_true, <- hasCanonicalReturn_true.
  rewrite visit_FunctionDefinition_run.
  unfold functionErrors, afterSignatureCheck_errors.
  rewrite Hid, Hpub, Hname, andb_false_r.
  rewrite (bool_decide_false (None = Some _)) by done.
  rewrite (bool_decide_false (is_Some None)) by (by intros [? ?]).
  rewrite (bool_decide_false ("afterSignatureCheck" = "onCodeUpgrade")) by done.
  rewrite (bool_decide_true ("afterSignatureCheck" = "afterSignatureCheck")) by done.
  simpl.
  destruct (hasCanonicalParameters f), (hasCanonicalReturn f), (isInline f);
    case_bool_decide; simpl; split; try done; try (intros (?&?&?&?); done);
    try (intros [= ]).
Qed.

(** X7. A public function named [afterSignatureCheck] cannot pass: it is
    reported as not private, and reported either as not inline or, when it
    is inline, as an inline function that is public. *)
Theorem afterSignatureCheck_public_rejected (f : FunctionDefinition) :
  name f = "afterSignatureCheck" → isPublic f = true → visibility f ≠ Private →
  ∃ w, visit_FunctionDefinition f = Some (true, w) ∧
       notPrivateError f ∈ w ∧
       (if isInline f then inlineVisibilityError f ∈ w else notInlineError f ∈ w) ∧
       (2 ≤ length w)%nat.
Proof.
  intros Hname Hpub Hvis. eexists. split; [apply visit_FunctionDefinition_run|].
  assert (notPrivateError f ∈ afterSignatureCheck_errors f) as Hpriv.
  { apply afterSignatureCheck_errors_elem_of. split; [done|]. right; right; by left. }
  split; [apply elem_of_app; by right|]. split.
  - destruct (isInline f) eqn:Hinl.
    + apply visit_FunctionDefinition_elem_of. do 3 right. by left.
    + apply visit_FunctionDefinition_elem_of. do 5 right.
      apply afterSignatureCheck_errors_elem_of. split; [done|]. by do 3 right.
  - rewrite length_app. unfold afterSignatureCheck_errors, functionErrors.
    rewrite Hname, Hpub.
    rewrite (bool_decide_true ("afterSignatureCheck" = "afterSignatureCheck")) by done.
    rewrite (bool_decide_false (visibility f = Private)) by done.
    rewrite !length_app. simpl. rewrite !length_app.
    destruct (isInline f); simpl; lia.
Qed.

(** ** The checks of a variable declaration and of an index range access *)

(** X8. A variable declaration is reported exactly when it is a state variable
    of the category [TvmSlice], once; a local variable of that category and
    a state variable of another one get no error. *)
Theorem stateVariable_TvmSlice_rule (v : VariableDeclaration) :
  ∃ w, visit_VariableDeclaration v = Some (true, w) ∧
       (w = [stateVariableError v]
        ↔ isStateVariable v = true ∧ category (var_type v) = TvmSlice) ∧
       (w = [] ↔ ¬ (isStateVariable v = true ∧ category (var_type v) = TvmSlice)).
Proof.
  unfold visit_VariableDeclaration. rewrite when_typeError. simpl.
  eexists. split; [reflexivity|]. rewrite app_nil_r.
  destruct (isStateVariable v); simpl; [case_bool_decide|]; naive_solver.
Qed.

(** X9. An index range access gets no error exactly when the type of its base
    is an array that is a byte array or a string; any other base gets the
    one error of the check. *)
Theorem indexRangeAccess_accepted_iff (n : IndexRangeAccess) :
  (visit_IndexRangeAccess n = Some (true, [])
   ↔ ∃ a, to_ArrayType (expr_type (baseExpression n)) = Some a
          ∧ isByteArrayOrString a = true) ∧
  (visit_IndexRangeAccess n = Some (true, [indexRangeError n])
   ↔ ¬ ∃ a, to_ArrayType (expr_type (baseExpression n)) = Some a
            ∧ isByteArrayOrString a = true).
Proof.
  assert (∃ c : bool,
            visit_IndexRangeAccess n
            = Some (true, if c then [] else [indexRangeError n])
            ∧ (c = true ↔ ∃ a, to_ArrayType (expr_type (baseExpression n)) = Some a
                               ∧ isByteArrayOrString a = true)) as (c & -> & Hc).
  { unfold visit_IndexRangeAccess, indexRangeError.
    destruct (expr_type (baseExpression n)) as [| | | |[b]| | | | | |]; simpl;
      try (exists false; split; [reflexivity|]; split; [done|by intros (a & [=] & _)]).
    exists b. destruct b; (split; [reflexivity|]); split; try done.
    - intros _. by eexists.
    - by intros (a & [= <-] & Ha). }
  rewrite <- Hc. destruct c; split; split; try done; by intros [= ].
Qed.

(** ** The further properties on the example programs *)

Lemma plain_function_accepted_witness :
  functionID ex_plain = None ∧
  isInline ex_plain && isPublic ex_plain = false ∧
  name ex_plain ≠ "onCodeUpgrade" ∧ name ex_plain ≠ "afterSignatureCheck" ∧
  visit_FunctionDefinition ex_plain = Some (true, []).
Proof.
  split; [reflexivity|]. split; [reflexivity|].
  split; [discriminate|]. split; [discriminate|].
  exact (plain_function_accepted ex_plain eq_refl eq_refl
           ltac:(discriminate) ltac:(discriminate)).
Defined.

Lemma afterSignatureCheck_each_deviation_witness :
  name (ex_afterSignatureCheck Internal) = "afterSignatureCheck" ∧
  ∃ w, visit_FunctionDefinition (ex_afterSignatureCheck Internal) = Some (true, w) ∧
       notPrivateError (ex_afterSignatureCheck Internal) ∈ w.
Proof.
  split; [reflexivity|].
  destruct (afterSignatureCheck_each_deviation (ex_afterSignatureCheck Internal) eq_refl)
    as (w & Hrun & _ & _ & Hpriv & _).
  exists w. split; [exact Hrun|]. apply Hpriv. discriminate.
Defined.

Lemma afterSignatureCheck_accepted_witness :
  name (ex_afterSignatureCheck Private) = "afterSignatureCheck" ∧
  functionID (ex_afterSignatureCheck Private) = None ∧
  isPublic (ex_afterSignatureCheck Private) = false ∧
  visit_FunctionDefinition (ex_afterSignatureCheck Private) = Some (true, []).
Proof.
  split; [reflexivity|]. split; [reflexivity|]. split; [reflexivity|].
  apply (afterSignatureCheck_accepted_iff (ex_afterSignatureCheck Private)
           eq_refl eq_refl eq_refl).
  split; [by eexists _, _|]. split; [by eexists|]. done.
Defined.

Lemma afterSignatureCheck_public_rejected_witness :
  name (ex_afterSignatureCheck Public) = "afterSignatureCheck" ∧
  isPublic (ex_afterSignatureCheck Public) = true ∧
  visibility (ex_afterSignatureCheck Public) ≠ Private ∧
  ∃ w, visit_FunctionDefinition (ex_afterSignatureCheck Public) = Some (true, w) ∧
       notPrivateError (ex_afterSignatureCheck Public) ∈ w ∧
       inlineVisibilityError (ex_afterSignatureCheck Public) ∈ w ∧
       (2 ≤ length w)%nat.
Proof.
  split; [reflexivity|]. split; [reflexivity|]. split; [discriminate|].
  exact (afterSignatureCheck_public_rejected (ex_afterSignatureCheck Public)
           eq_refl eq_refl ltac:(discriminate)).
Defined.

Lemma non_struct_key_accepted_witness :
  (tn_kind (keyType ex_mapping_uint) ≠ UserDefinedTypeName
   ∨ category (tn_type (keyType ex_mapping_uint)) ≠ Struct) ∧
  visit_Mapping TypeInfo_spec 1023 ex_mapping_uint = Some (true, []).
Proof.
  assert (tn_kind (keyType ex_mapping_uint) ≠ UserDefinedTypeName
          ∨ category (tn_type (keyType ex_mapping_uint)) ≠ Struct) as H
    by (left; discriminate).
  split; [exact H|].
  exact (non_struct_key_accepted TypeInfo_spec 1023 ex_mapping_uint H).
Defined.

Lemma struct_key_accepted_witness :
  let key := ex_key 3 [ex_field 20 (T_Integer 255 false)] in
  INT_MIN ≤ sumBits TypeInfo_spec (members key) ≤ INT_MAX ∧
  Forall (λ member, isNumeric (TypeInfo_spec (var_type member)) = true) (members key) ∧
  sumBits TypeInfo_spec (members key) ≤ 1023 ∧
  visit_Mapping TypeInfo_spec 1023 (ex_mapping key) = Some (true, []).
Proof.
  cbv zeta.
  assert (INT_MIN ≤ sumBits TypeInfo_spec
                      (members (ex_key 3 [ex_field 20 (T_Integer 255 false)])) ≤ INT_MAX)
    as Hrange by (by vm_compute).
  assert (Forall (λ member, isNumeric (TypeInfo_spec (var_type member)) = true)
            (members (ex_key 3 [ex_field 20 (T_Integer 255 false)]))) as Hnum
    by (repeat constructor).
  assert (sumBits TypeInfo_spec
            (members (ex_key 3 [ex_field 20 (T_Integer 255 false)])) ≤ 1023) as Hle
    by (by vm_compute).
  split; [exact Hrange|]. split; [exact Hnum|]. split; [exact Hle|].
  exact (proj2 (struct_key_accepted_iff TypeInfo_spec 1023
                  (ex_mapping (ex_key 3 [ex_field 20 (T_Integer 255 false)]))
                  (ex_key 3 [ex_field 20 (T_Integer 255 false)])
                  eq_refl eq_refl Hrange) (conj Hnum Hle)).
Defined.

Lemma bad_fields_each_reported_witness :
  let key := ex_key 4 [ex_field 20 T_TvmCell; ex_field 40 T_TvmSlice] in
  ∃ bad fit,
    visit_Mapping TypeInfo_spec 1023 (ex_mapping key) = Some (true, bad ++ fit) ∧
    secondary <$> bad
    = [[("Bad field: ", ex_loc 20)]; [("Bad field: ", ex_loc 40)]].
Proof.
  cbv zeta.
  destruct (bad_fields_each_reported TypeInfo_spec 1023
              (ex_mapping (ex_key 4 [ex_field 20 T_TvmCell; ex_field 40 T_TvmSlice]))
              (ex_key 4 [ex_field 20 T_TvmCell; ex_field 40 T_TvmSlice])
              eq_refl eq_refl)
    as (bad & fit & Hrun & _ & Hsec & _).
  exists bad, fit. split; [exact Hrun|]. rewrite Hsec. reflexivity.
Defined.

Lemma only_ton_rejects_witness :
  ex_ever ≠ ex_ton ∧
  ∀ fc, visit_FunctionCall ex_ton ex_ever fc = Some (true, []).
Proof.
  split; [discriminate|].
  exact (proj1 (only_ton_rejects_calls_and_pragmas ex_ton ex_gosh ex_ever
                  ltac:(discriminate))).
Defined.

Lemma gosh_namespace_rejected_witness :
  ex_ever ≠ ex_gosh ∧
  category (expr_type (ma_expression ex_gosh_access)) = Magic ∧
  to_Identifier (ma_expression ex_gosh_access) = Some (mkIdentifier "gosh") ∧
  ∃ w, visit_MemberAccess ex_ton ex_gosh ex_ever ex_gosh_access = Some (true, w) ∧
       notSupportedError (ex_loc 500) (F_gosh "commit") ∈ w ∧
       length w = 1%nat.
Proof.
  split; [discriminate|]. split; [reflexivity|]. split; [reflexivity|].
  exact (gosh_namespace_rejected ex_ton ex_gosh ex_ever ex_gosh_access
           (mkIdentifier "gosh") ltac:(discriminate) eq_refl eq_refl eq_refl).
Defined.

Lemma functionID_value_mismatch_witness :
  functionID (ex_idValue 11 20%positive) = Some 11%N ∧
  functionID (ex_idValue 11 10%positive) = Some 10%N ∧
  11%N ≠ 10%N ∧
  ∃ w, checkBase (ex_idValue 11) 20%positive 10%positive = Some (tt, w) ∧
       length (filter (λ e, e = valueError (ex_idValue 11) 20%positive 10%positive 10) w)
       = 1%nat ∧
       (presenceError (ex_idValue 11) 20%positive 10%positive ∉ w) ∧
       message (valueError (ex_idValue 11) 20%positive 10%positive 10)
       = "Override function should have functionID = 10.".
Proof.
  split; [reflexivity|]. split; [reflexivity|]. split; [discriminate|].
  exact (functionID_value_mismatch (ex_idValue 11) 20%positive 10%positive 11%N 10%N
           eq_refl eq_refl ltac:(discriminate)).
Defined.

Lemma functionID_presence_mismatch_witness :
  (functionID (ex_idPresence 20%positive) = None
   ↔ is_Some (functionID (ex_idPresence 10%positive))) ∧
  ∃ w, checkBase ex_idPresence 20%positive 10%positive = Some (tt, w) ∧
       length (filter (λ e, e = presenceError ex_idPresence 20%positive 10%positive) w)
       = 2%nat.
Proof.
  assert (functionID (ex_idPresence 20%positive) = None
          ↔ is_Some (functionID (ex_idPresence 10%positive))) as H
    by (split; [by eexists|reflexivity]).
  split; [exact H|].
  destruct (functionID_presence_mismatch ex_idPresence 20%positive 10%positive H)
    as (w & Hrun & Htwice & _).
  by exists w.
Defined.

Lemma distinct_functionIDs_witness :
  let fn := ex_idValue 11 in
  NoDup (omap (λ f, functionID (fn f)) (hierarchyFunctions ex_contracts 2%positive)) ∧
  ∃ errs,
    checkOverrideAndOverload fn ex_contracts (getAllBaseFunctions_spec fn 8) 2%positive
    = Some (tt, errs) ∧
    ∀ e, e ∈ errs → message e ≠ "Two functions have the same functionID.".
Proof.
  cbv zeta.
  assert (NoDup (omap (λ f, functionID (ex_idValue 11 f))
                   (hierarchyFunctions ex_contracts 2%positive))) as Hnodup.
  { vm_compute. apply NoDup_cons. split.
    - intros [H|H]%elem_of_cons; [discriminate H|by apply elem_of_nil in H].
    - apply NoDup_singleton. }
  split; [exact Hnodup|].
  exact (distinct_functionIDs_never_reported (ex_idValue 11) ex_contracts
           (getAllBaseFunctions_spec (ex_idValue 11) 8) 2%positive Hnodup).
Defined.

Lemma hierarchy_accepted_witness :
  let fn := ex_idValue 10 in
  let gabf := getAllBaseFunctions_spec fn 8 in
  (∀ pre f post id g,
     hierarchyFunctions ex_contracts 2%positive = pre ++ f :: post →
     functionID (fn f) = Some id → g ∈ pre → functionID (fn g) = Some id →
     g ∈ gabf f ∨ f ∈ gabf g) ∧
  (∀ f base,
     f ∈ collected fn ex_contracts 2%positive → base ∈ baseFunctions (fn f) →
     functionID (fn f) = functionID (fn base)
     ∧ isResponsible (fn f) = isResponsible (fn base)
     ∧ internalMsg (fn f) = internalMsg (fn base)
     ∧ externalMsg (fn f) = externalMsg (fn base)) ∧
  (∀ f ff,
     f ∈ collected fn ex_contracts 2%positive →
     ff ∈ collected fn ex_contracts 2%positive → f ≠ ff →
     isPublic (fn f) = true → isPublic (fn ff) = true →
     ¬ overridden fn ex_contracts 2%positive f →
     ¬ overridden fn ex_contracts 2%positive ff →
     name (fn f) ≠ name (fn ff)) ∧
  checkOverrideAndOverload fn ex_contracts gabf 2%positive = Some (tt, []).
Proof.
  cbv zeta.
  assert (∀ x, x ∈ collected (ex_idValue 10) ex_contracts 2%positive →
               x = 10%positive ∨ x = 20%positive) as Hfs.
  { intros x Hx. vm_compute in Hx.
    apply elem_of_cons in Hx as [->|Hx]; [by left|].
    apply elem_of_cons in Hx as [->|Hx]; [by right|].
    by apply elem_of_nil in Hx. }
  assert (20%positive ∈ collected (ex_idValue 10) ex_contracts 2%positive) as H20
    by solve_elem_of.
  assert (∀ x, x ∈ collected (ex_idValue 10) ex_contracts 2%positive →
               overridden (ex_idValue 10) ex_contracts 2%positive x) as Hov.
  { intros x Hx. exists 20%positive. split; [exact H20|]. split; [discriminate|].
    destruct (Hfs x Hx) as [->| ->]; [right; solve_elem_of|by left]. }
  assert (∀ pre f post id g,
            hierarchyFunctions ex_contracts 2%positive = pre ++ f :: post →
            functionID (ex_idValue 10 f) = Some id → g ∈ pre →
            functionID (ex_idValue 10 g) = Some id →
            g ∈ getAllBaseFunctions_spec (ex_idValue 10) 8 f
            ∨ f ∈ getAllBaseFunctions_spec (ex_idValue 10) 8 g) as H1.
  { intros pre f post id g Hsplit _ Hg _. vm_compute in Hsplit.
    destruct pre as [|a [|b pre]].
    - by apply elem_of_nil in Hg.
    - injection Hsplit as <- <- _. apply list_elem_of_singleton in Hg as ->.
      left. by vm_compute.
    - injection Hsplit as _ _ Hnil. by destruct pre. }
  assert (∀ f base,
            f ∈ collected (ex_idValue 10) ex_contracts 2%positive →
            base ∈ baseFunctions (ex_idValue 10 f) →
            functionID (ex_idValue 10 f) = functionID (ex_idValue 10 base)
            ∧ isResponsible (ex_idValue 10 f) = isResponsible (ex_idValue 10 base)
            ∧ internalMsg (ex_idValue 10 f) = internalMsg (ex_idValue 10 base)
            ∧ externalMsg (ex_idValue 10 f) = externalMsg (ex_idValue 10 base)) as H2.
  { intros f base [->| ->]%Hfs Hbase.
    - by apply elem_of_nil in Hbase.
    - apply list_elem_of_singleton in Hbase as ->. by vm_compute. }
  assert (∀ f ff,
            f ∈ collected (ex_idValue 10) ex_contracts 2%positive →
            ff ∈ collected (ex_idValue 10) ex_contracts 2%positive → f ≠ ff →
            isPublic (ex_idValue 10 f) = true → isPublic (ex_idValue 10 ff) = true →
            ¬ overridden (ex_idValue 10) ex_contracts 2%positive f →
            ¬ overridden (ex_idValue 10) ex_contracts 2%positive ff →
            name (ex_idValue 10 f) ≠ name (ex_idValue 10 ff)) as H3.
  { intros f ff Hf _ _ _ _ Hnov. destruct Hnov. by apply Hov. }
  split; [exact H1|]. split; [exact H2|]. split; [exact H3|].
  exact (hierarchy_accepted (ex_idValue 10) ex_contracts
           (getAllBaseFunctions_spec (ex_idValue 10) 8) 2%positive H1 H2 H3).
Defined.
